(** * Shallow embedding of the FSM-driven interactor (P3 Skel Code)

    Sources: [out/EventSpec.js], [out/Action.js], [out/FSMInteractor.js]
    (which bundles [FSMInteractor] and [FSM]) and [src/FSMInteractor.ts].

    Modelling conventions.
    - JavaScript objects are compared with [===], i.e. by reference.  A
      [Region] object carries an identity [rid]; two Region values denote the
      same object iff their [rid]s are equal ([reg_eqb]).
    - Coordinates ([number]) are modelled as [Z].
    - [undefined] for an optional reference is [None].
    - States are referenced by their index in the FSM's state list.
    - Console output ([console.log]) is an output list of strings, appended to.
    - [Err.emit] reports and aborts the current operation (see [err_emit]). *)

From Stdlib Require Import List String Bool ZArith Lia.
Import ListNotations.
Open Scope string_scope.
Open Scope Z_scope.

(** ** Event types ([EventType] in EventSpec.ts) *)

Inductive EventType :=
| press | release | release_none | enter | exit | move_inside | any | nevermatch.

Definition EventType_eqb (a b : EventType) : bool :=
  match a, b with
  | press, press | release, release | release_none, release_none
  | enter, enter | exit, exit | move_inside, move_inside
  | any, any | nevermatch, nevermatch => true
  | _, _ => false
  end.

Definition EventType_str (e : EventType) : string :=
  match e with
  | press => "press" | release => "release" | release_none => "release_none"
  | enter => "enter" | exit => "exit" | move_inside => "move_inside"
  | any => "any" | nevermatch => "nevermatch"
  end.

(** ** Regions

    A [Region] object: identity, name, bounding box and the mutable image
    location.  The mutable image lives in the region values held by the FSM's
    region list; references held elsewhere are compared by [rid] only. *)

Record Region := mkRegion {
  rid : nat;
  name : string;
  x : Z; y : Z; w : Z; h : Z;
  imageLoc : string
}.

(** [===] on Region objects *)
Definition reg_eqb (a b : Region) : bool := Nat.eqb (rid a) (rid b).

(** [===] on [Region | undefined] *)
Definition optreg_eqb (a b : option Region) : bool :=
  match a, b with
  | None, None => true
  | Some r1, Some r2 => reg_eqb r1 r2
  | _, _ => false
  end.

(** [Array.prototype.includes] on a list of regions (reference equality) *)
Definition includes (l : list Region) (r : Region) : bool :=
  existsb (reg_eqb r) l.

(** ** Errors: [Err.emit] and thrown exceptions *)

Inductive Exn :=
| ErrEmitted (msg : string)   (* raised through Err.emit *)
| JsonSyntaxError             (* rejection of [response.json()] *)
| FetchTypeError.             (* rejection of [fetch()] *)

Inductive Res (A : Type) :=
| Ok (a : A)
| Throw (e : Exn).
Arguments Ok {A} a.
Arguments Throw {A} e.

Definition bind {A B} (m : Res A) (k : A -> Res B) : Res B :=
  match m with Ok a => k a | Throw e => Throw e end.

Notation "'let!' p ':=' m 'in' k" := (bind m (fun p => k))
  (at level 200, p name, m at level 100, k at level 200).

(** Modelled from the spec: [Err.emit] (Err.ts is not part of the sources).
    Section 7 of the spec: errors are "reported through a single centralized
    error-reporting channel (message text + abort of the current
    operation)". *)
Definition err_emit {A} (msg : string) : Res A := Throw (ErrEmitted msg).

(** ** EventSpec (EventSpec.js) *)

Record EventSpec := mkEventSpec {
  evtType : EventType;
  regionName : string;
  region : option Region
}.

(** [new EventSpec(evtTyp, regionName)]: the region starts unbound *)
Definition EventSpec_new (evtTyp : EventType) (rn : string) : EventSpec :=
  {| evtType := evtTyp; regionName := rn; region := None |}.

(** [EventSpec.bindRegion(regionList)] *)
Definition EventSpec_bindRegion (es : EventSpec) (regionList : list Region)
  : Res EventSpec :=
  if String.eqb (regionName es) "*" then
    Ok {| evtType := evtType es; regionName := regionName es; region := None |}
  else
    match find (fun reg => String.eqb (regionName es) (name reg)) regionList with
    | Some reg =>
        Ok {| evtType := evtType es; regionName := regionName es; region := Some reg |}
    | None =>
        if EventType_eqb (evtType es) nevermatch then Ok es
        else if (EventType_eqb (evtType es) release_none
                 || EventType_eqb (evtType es) any)
                && String.eqb (regionName es) "" then Ok es
        else err_emit ("Region '" ++ regionName es ++
                       "' in event specification does not match any region.")
    end.

(** [EventSpec.match(evtType, regn)] *)
Definition match_ (es : EventSpec) (evt : EventType) (regn : option Region) : bool :=
  let event_match := EventType_eqb (evtType es) evt in
  let reg_match :=
    optreg_eqb (region es) regn
    || (String.eqb (regionName es) "*" && optreg_eqb (region es) None) in
  match evtType es with
  | nevermatch => false
  | any => reg_match
  | release_none => event_match
  | _ => event_match && reg_match
  end.

(** ** Action (Action.js) *)

Inductive ActionType := set_image | clear_image | none | print | print_event.

Definition ActionType_eqb (a b : ActionType) : bool :=
  match a, b with
  | set_image, set_image | clear_image, clear_image | none, none
  | print, print | print_event, print_event => true
  | _, _ => false
  end.

Record Action := mkAction {
  actType : ActionType;
  onRegionName : string;
  onRegion : option Region;
  param : string
}.

(** [new Action(actType, regionName, param)] (arguments already defaulted
    to "" by the [??] of the constructor) *)
Definition Action_new (at_ : ActionType) (rn p : string) : Action :=
  {| actType := at_; onRegionName := rn; onRegion := None; param := p |}.

(** Writing [region.imageLoc = v] through a reference: the region object with
    the same identity in the FSM's region list is updated. *)
Definition set_imageLoc (regs : list Region) (r : Region) (v : string) : list Region :=
  map (fun r' => if reg_eqb r' r
                 then {| rid := rid r'; name := name r'; x := x r'; y := y r';
                         w := w r'; h := h r'; imageLoc := v |}
                 else r') regs.

(** [Action.execute(evtType, evtReg)], acting on the region objects and the
    console *)
Definition execute (a : Action) (evt : EventType) (evtReg : option Region)
  (regs : list Region) (out : list string) : list Region * list string :=
  match actType a with
  | none => (regs, out)
  | set_image =>
      match onRegion a with
      | Some r => (set_imageLoc regs r (param a), out)
      | None => (regs, out)
      end
  | clear_image =>
      match onRegion a with
      | Some r => (set_imageLoc regs r "", out)
      | None => (regs, out)
      end
  | print => (regs, app out [param a])
  | print_event =>
      let event_dump :=
        match evtReg with
        | Some r => EventType_str evt ++ "(" ++ name r ++ ")"
        | None => EventType_str evt ++ "(" ++ "undefined" ++ ")"
        end in
      (regs, app out [param a ++ event_dump])
  end.

(** [Action.bindRegion(regionList)] *)
Definition Action_bindRegion (a : Action) (regionList : list Region) : Res Action :=
  match find (fun reg => String.eqb (onRegionName a) (name reg)) regionList with
  | Some reg =>
      Ok {| actType := actType a; onRegionName := onRegionName a;
            onRegion := Some reg; param := param a |}
  | None =>
      if ActionType_eqb (actType a) none || ActionType_eqb (actType a) print
         || ActionType_eqb (actType a) print_event
      then Ok {| actType := actType a; onRegionName := onRegionName a;
                 onRegion := None; param := param a |}
      else err_emit ("Region '" ++ onRegionName a ++ "' in action does not match any region.")
  end.

(** ** Transition and State *)

Record Transition := mkTransition {
  onEvent : EventSpec;
  actions : list Action;
  targetName : string;
  target : option nat     (* index of the bound target State *)
}.

Record State := mkState {
  st_name : string;
  transitions : list Transition
}.

(** Modelled from the spec: [Transition.match] (Transition.ts is not part of
    the sources).  Spec 4.3: a transition is taken when "its EventSpec
    [match]es". *)
Definition Transition_match (t : Transition) (evt : EventType) (reg : option Region) : bool :=
  match_ (onEvent t) evt reg.

(** Position of the first element satisfying [p] *)
Fixpoint find_index {A} (p : A -> bool) (l : list A) : option nat :=
  match l with
  | [] => None
  | a :: l' => if p a then Some 0%nat else option_map S (find_index p l')
  end.

(** Modelled from the spec: [Transition.bindTarget] (Transition.ts is not part
    of the sources).  Spec 4.3: every transition's target-state name is
    resolved against the states; "any unresolved target state name is
    fatal". *)
Definition Transition_bindTarget (t : Transition) (sts : list State) : Res Transition :=
  match find_index (fun s => String.eqb (targetName t) (st_name s)) sts with
  | Some i =>
      Ok {| onEvent := onEvent t; actions := actions t;
            targetName := targetName t; target := Some i |}
  | None => err_emit ("Target state '" ++ targetName t ++ "' does not match any state.")
  end.

(** ** FSM *)

Record FSM := mkFSM {
  regions : list Region;
  states : list State;
  startState : option nat;
  currentState : option nat
}.

Definition with_current (f : FSM) (c : option nat) : FSM :=
  {| regions := regions f; states := states f; startState := startState f;
     currentState := c |}.

Definition with_regions_current (f : FSM) (rs : list Region) (c : option nat) : FSM :=
  {| regions := rs; states := states f; startState := startState f;
     currentState := c |}.

(** [trans.actions.forEach(action => action.execute(evtType, reg))] *)
Definition run_actions (acts : list Action) (evt : EventType) (reg : option Region)
  (regs : list Region) (out : list string) : list Region * list string :=
  fold_left (fun '(rs, o) a => execute a evt reg rs o) acts (regs, out).

(** [FSM.actOnEvent(evtType, reg)] *)
Definition actOnEvent (f : FSM) (out : list string) (evt : EventType)
  (reg : option Region) : FSM * list string :=
  match currentState f with
  | None => (f, out)                       (* if (!this._currentState) return; *)
  | Some i =>
      match nth_error (states f) i with
      | None => (f, out)
      | Some st =>
          (fix scan (ts : list Transition) : FSM * list string :=
             match ts with
             | [] => (f, out)
             | trans :: ts' =>
                 if Transition_match trans evt reg then
                   let '(rs, out') := run_actions (actions trans) evt reg (regions f) out in
                   (with_regions_current f rs (target trans), out')
                 else scan ts'
             end) (transitions st)
      end
  end.

(** [FSM.reset()] *)
Definition reset (f : FSM) : FSM := with_current f (startState f).

(** [for ... of] over a list whose body may raise *)
Fixpoint mapRes {A B} (g : A -> Res B) (l : list A) : Res (list B) :=
  match l with
  | [] => Ok []
  | a :: l' => let! b := g a in let! bs := mapRes g l' in Ok (b :: bs)
  end.

(** One transition of the binding loop of [FSM._finalize()]:
    [trans.bindTarget(this.states); trans.onEvent.bindRegion(this.regions);
     for (const act of trans.actions) act.bindRegion(this.regions);] *)
Definition bind_transition (sts : list State) (regs : list Region) (t : Transition)
  : Res Transition :=
  let! t1 := Transition_bindTarget t sts in
  let! es := EventSpec_bindRegion (onEvent t1) regs in
  let! acts := mapRes (fun act => Action_bindRegion act regs) (actions t1) in
  Ok {| onEvent := es; actions := acts; targetName := targetName t1; target := target t1 |}.

(** [new FSM(regions, states, parent)]: [_startState = states[0]],
    [_currentState = _startState], then [_finalize()].  (The [reg.parent = this]
    back-links set at the end of [_finalize] are not modelled.) *)
Definition FSM_new (regs : list Region) (sts : list State) : Res FSM :=
  let start := match sts with [] => None | _ :: _ => Some 0%nat end in
  let! sts' :=
    mapRes (fun st =>
              let! ts := mapRes (bind_transition sts regs) (transitions st) in
              Ok {| st_name := st_name st; transitions := ts |}) sts in
  Ok {| regions := regs; states := sts'; startState := start; currentState := start |}.

(** ** JSON descriptions ([FSM_json] and its parts); a field that is not an
    array is [None]. *)

Record Region_json := mkRegion_json {
  rj_name : string; rj_x : Z; rj_y : Z; rj_w : Z; rj_h : Z; rj_image : string
}.
Record EventSpec_json := mkEventSpec_json { ej_evtType : EventType; ej_region : string }.
Record Action_json := mkAction_json { aj_act : ActionType; aj_region : string; aj_param : string }.
Record Transition_json := mkTransition_json {
  tj_event : EventSpec_json; tj_actions : list Action_json; tj_target : string
}.
Record State_json := mkState_json { sj_name : string; sj_transitions : list Transition_json }.
Record FSM_json := mkFSM_json {
  fj_regions : option (list Region_json);
  fj_states : option (list State_json)
}.

(** [EventSpec.fromJson] *)
Definition EventSpec_fromJson (ej : EventSpec_json) : EventSpec :=
  EventSpec_new (ej_evtType ej) (ej_region ej).

(** [Action.fromJson] *)
Definition Action_fromJson (aj : Action_json) : Action :=
  Action_new (aj_act aj) (aj_region aj) (aj_param aj).

(** Modelled from the spec: [Region.fromJson] (Region.ts is not part of the
    sources): a new Region object (fresh identity [id]) with the name,
    position, size and image of the record.  Identities are fresh within one
    FSM only: a later load numbers its regions from 0 again, so a region of
    a new FSM is not told apart from the region of an earlier FSM with the
    same index. *)
Definition Region_fromJson (id : nat) (rj : Region_json) : Region :=
  {| rid := id; name := rj_name rj; x := rj_x rj; y := rj_y rj; w := rj_w rj;
     h := rj_h rj; imageLoc := rj_image rj |}.

(** Modelled from the spec: [Transition.fromJson] and [State.fromJson]
    (Transition.ts and State.ts are not part of the sources): the trigger,
    the ordered actions and the unresolved target-state name. *)
Definition Transition_fromJson (tj : Transition_json) : Transition :=
  {| onEvent := EventSpec_fromJson (tj_event tj);
     actions := map Action_fromJson (tj_actions tj);
     targetName := tj_target tj; target := None |}.

Definition State_fromJson (sj : State_json) : State :=
  {| st_name := sj_name sj; transitions := map Transition_fromJson (sj_transitions sj) |}.

(** The region loop of [FSM.fromJson] *)
Fixpoint add_regions (rjs : list Region_json) (allNames : list string)
  (regs : list Region) : Res (list Region) :=
  match rjs with
  | [] => Ok regs
  | reg :: rest =>
      if existsb (String.eqb (rj_name reg)) allNames then
        let! _ := (err_emit ("Duplicate region '" ++ rj_name reg ++
                             "' declaration in FSM") : Res unit) in
        add_regions rest allNames regs
      else
        add_regions rest (app allNames [rj_name reg])
          (app regs [Region_fromJson (List.length regs) reg])
  end.

(** The state loop of [FSM.fromJson] *)
Fixpoint add_states (sjs : list State_json) (allNames : list string)
  (sts : list State) : Res (list State) :=
  match sjs with
  | [] => Ok sts
  | st :: rest =>
      if existsb (String.eqb (sj_name st)) allNames then
        let! _ := (err_emit ("Duplicate state '" ++ sj_name st ++
                             "' declaration in FSM") : Res unit) in
        add_states rest allNames sts
      else
        add_states rest (app allNames [sj_name st]) (app sts [State_fromJson st])
  end.

(** [FSM.fromJson(fsm, parent)] *)
Definition FSM_fromJson (d : FSM_json) : Res FSM :=
  let! regs :=
    match fj_regions d with
    | None =>
        let! _ := (err_emit "Region list is not an array in FSM.fromJson()" : Res unit) in
        Ok []
    | Some rjs => add_regions rjs [] []
    end in
  let! sts :=
    match fj_states d with
    | None =>
        let! _ := (err_emit "State list is not an array in FSM.fromJson()" : Res unit) in
        Ok []
    | Some sjs =>
        let! _ := (match sjs with
                   | [] => err_emit "No states provide for FSM in FSM.fromJson()"
                   | _ :: _ => Ok tt
                   end : Res unit) in
        add_states sjs [] []
    end in
  FSM_new regs sts.

(** ** FSMInteractor (FSMInteractor.ts) *)

Record FSMInteractor := mkFSMInteractor {
  ix : Z;
  iy : Z;
  fsm : option FSM;
  lastPickedRegions : list Region
}.

(** [new FSMInteractor(fsm, x, y, parent)] *)
Definition FSMInteractor_new (f : option FSM) (x0 y0 : Z) : FSMInteractor :=
  {| ix := x0; iy := y0; fsm := f; lastPickedRegions := [] |}.

(** [FSMInteractor.pick(localX, localY)] *)
Definition pick (it : FSMInteractor) (localX localY : Z) : list Region :=
  match fsm it with
  | None => []
  | Some f =>
      let pickList :=
        fold_left
          (fun pickList reg =>
             if (localX >=? x reg) && (localX <=? x reg + w reg) then
               if (localY >=? y reg) && (localY <=? y reg + h reg) then
                 app pickList [reg]
               else pickList
             else pickList)
          (regions f) [] in
      rev pickList
  end.

(** The raw event kinds of [dispatchRawEvent] *)
Inductive RawKind := Raw_press | Raw_move | Raw_release.

Section Deliver.
(** The state the FSM's [actOnEvent] acts on, and the call itself. *)
Variable S : Type.
Variable act : S -> EventType -> option Region -> S.

(** The body of [dispatchRawEvent] after the pick: every
    [this.fsm?.actOnEvent(...)] call, in program order. *)
Definition deliver (what : RawKind) (currentlist prevlist : list Region) (s : S) : S :=
  let enter_region := filter (fun r => negb (includes prevlist r)) currentlist in
  let exit_region := filter (fun r => negb (includes currentlist r)) prevlist in
  let s := fold_left (fun s region => act s exit (Some region)) exit_region s in
  let s := fold_left (fun s region => act s enter (Some region)) enter_region s in
  let s := fold_left (fun s reg =>
                        match what with
                        | Raw_move => act s move_inside (Some reg)
                        | Raw_press => act s press (Some reg)
                        | Raw_release => act s release (Some reg)
                        end) currentlist s in
  match what, currentlist with
  | Raw_release, [] => act s release_none None
  | _, _ => s
  end.
End Deliver.
Arguments deliver {S} act what currentlist prevlist s.

(** [FSMInteractor.dispatchRawEvent(what, localX, localY)] *)
Definition dispatchRawEvent (it : FSMInteractor) (out : list string) (what : RawKind)
  (localX localY : Z) : FSMInteractor * list string :=
  match fsm it with
  | None => (it, out)
  | Some f =>
      let currentlist := pick it localX localY in
      let prevlist := lastPickedRegions it in
      let '(f', out') :=
        deliver (fun '(f0, o) e r => actOnEvent f0 o e r) what currentlist prevlist (f, out) in
      ({| ix := ix it; iy := iy it; fsm := Some f'; lastPickedRegions := currentlist |}, out')
  end.

(** Drawing: the calls made on the canvas context and on the regions *)
Inductive DrawCmd :=
| Save
| Translate (dx dy : Z)
| DrawRegion (r : Region) (showDebugging : bool)
| Restore.

(** The region loop of [FSMInteractor.draw]; [showDebugging] is a local
    variable that the loop body assigns. *)
Fixpoint draw_loop (regs : list Region) (showDebugging : bool) : list DrawCmd :=
  match regs with
  | [] => []
  | reg :: rest =>
      let showDebugging := true in
      [Save; Translate (x reg) (y reg); DrawRegion reg showDebugging; Restore]
        ++ draw_loop rest showDebugging
  end%list.

(** [FSMInteractor.draw(ctx, showDebugging)] *)
Definition draw (it : FSMInteractor) (showDebugging : bool) : list DrawCmd :=
  match fsm it with
  | None => []
  | Some f => draw_loop (regions f) showDebugging
  end.

(** The outcome of [await fetch(jsonLoc)]: a rejected fetch, or a response
    with its [ok] flag and the result of [await response.json()] ([None] when
    the body does not parse). *)
Inductive FetchOutcome :=
| FetchRejected
| Response (ok : bool) (json : option FSM_json).

Definition quote : string := String (Ascii.ascii_of_nat 34) EmptyString.

Definition with_fsm (it : FSMInteractor) (f : option FSM) : FSMInteractor :=
  {| ix := ix it; iy := iy it; fsm := f; lastPickedRegions := lastPickedRegions it |}.

(** [FSMInteractor.startLoadFromJson(jsonLoc)]: the interactor after the
    asynchronous body has run, and how the returned promise settles
    ([Ok tt] resolved, [Throw e] rejected).  A rejected [fetch] rejects the
    promise before anything is assigned. *)
Definition startLoadFromJson (it : FSMInteractor) (jsonLoc : string) (resp : FetchOutcome)
  : FSMInteractor * Res unit :=
  match resp with
  | FetchRejected => (it, Throw FetchTypeError)
  | Response false _ =>
      match (err_emit ("Load of FSM from " ++ quote ++ jsonLoc ++ quote ++ " failed")
             : Res unit) with
      | Throw e => (it, Throw e)
      | Ok _ => (with_fsm it None, Ok tt)
      end
  | Response true None => (it, Throw JsonSyntaxError)
  | Response true (Some data) =>
      match FSM_fromJson data with
      | Throw e => (it, Throw e)
      | Ok f => (with_fsm it (Some f), Ok tt)   (* then this.damage() *)
      end
  end.

(** ** The dispatch order as the spec words it (section 4.4, steps 2-4), to
    be compared with [deliver]. *)
Definition spec_events (what : RawKind) (current previous : list Region)
  : list (EventType * option Region) :=
  let exited := filter (fun r => negb (includes current r)) previous in
  let entered := filter (fun r => negb (includes previous r)) current in
  map (fun r => (exit, Some r)) exited
  ++ map (fun r => (enter, Some r)) entered
  ++ match what with
     | Raw_move => map (fun r => (move_inside, Some r)) current
     | Raw_press => map (fun r => (press, Some r)) current
     | Raw_release =>
         match current with
         | [] => [(release_none, None)]
         | _ :: _ => map (fun r => (release, Some r)) current
         end
     end.

(** Hit test of section 4.4, edge-inclusive *)
Definition contains (px py : Z) (r : Region) : Prop :=
  x r <= px <= x r + w r /\ y r <= py <= y r + h r.

(** Reference equality of optional regions, as a proposition *)
Definition same_ref (a b : option Region) : Prop :=
  option_map rid a = option_map rid b.

(** ** Sample data *)

Definition regA : Region := mkRegion 0 "A" 0 0 10 10 "a.png".
Definition regB : Region := mkRegion 1 "B" 20 0 10 10 "b.png".
Definition regC : Region := mkRegion 2 "C" 5 5 10 10 "".

Definition sampleFSM : FSM :=
  {| regions := [regA; regB; regC];
     states := [ {| st_name := "start"; transitions :=
                     [ {| onEvent := mkEventSpec press "A" (Some regA);
                          actions := [mkAction print "" None "pressed A"];
                          targetName := "down"; target := Some 1%nat |} ] |};
                 {| st_name := "down"; transitions := [] |} ];
     startState := Some 0%nat; currentState := Some 0%nat |}.

Definition sampleInteractor (prev : list Region) : FSMInteractor :=
  {| ix := 0; iy := 0; fsm := Some sampleFSM; lastPickedRegions := prev |}.

(** Recording handler: the list of events delivered, in order *)
Definition record (l : list (EventType * option Region)) (e : EventType) (r : option Region)
  : list (EventType * option Region) := app l [(e, r)].

(** Boolean version of [contains], written from the spec's inequalities *)
Definition containsb (px py : Z) (r : Region) : bool :=
  (x r <=? px) && (px <=? x r + w r) && (y r <=? py) && (py <=? y r + h r).

(** ** Tests on the sample data *)

(** Spec section 8: from outside all regions into A only. *)
Example seq_enter_A :
  deliver record Raw_move (pick (sampleInteractor []) 1 1) [] [] =
  [(enter, Some regA); (move_inside, Some regA)].
Proof. reflexivity. Qed.

(** Spec section 8: from A only into B only. *)
Example seq_A_to_B :
  deliver record Raw_move (pick (sampleInteractor [regA]) 25 5) [regA] [] =
  [(exit, Some regA); (enter, Some regB); (move_inside, Some regB)].
Proof. reflexivity. Qed.

(** Spec section 8: press then release over no region. *)
Example seq_press_release_none :
  deliver record Raw_press (pick (sampleInteractor []) 50 50) [] [] = [] /\
  deliver record Raw_release (pick (sampleInteractor []) 50 50) [] [] =
  [(release_none, None)].
Proof. split; reflexivity. Qed.

(** Overlapping regions: the last declared is picked first. *)
Example pick_overlap : pick (sampleInteractor []) 7 7 = [regC; regA].
Proof. reflexivity. Qed.

(** ** Reflection lemmas *)

Lemma EventType_eqb_true_iff (a b : EventType) : EventType_eqb a b = true <-> a = b.
Proof. destruct a, b; simpl; split; intro H; congruence. Qed.

Lemma optreg_eqb_true_iff (a b : option Region) :
  optreg_eqb a b = true <-> same_ref a b.
Proof.
  unfold same_ref; destruct a as [r1|], b as [r2|]; simpl; split; intro H;
    try discriminate; try reflexivity.
  - unfold reg_eqb in H; apply Nat.eqb_eq in H; now rewrite H.
  - injection H as H; unfold reg_eqb; now apply Nat.eqb_eq.
Qed.

Lemma optreg_eqb_None_iff (a : option Region) : optreg_eqb a None = true <-> a = None.
Proof. destruct a; simpl; split; intro H; congruence. Qed.

Lemma reg_match_iff (es : EventSpec) (regn : option Region) :
  (optreg_eqb (region es) regn
   || (String.eqb (regionName es) "*" && optreg_eqb (region es) None)) = true
  <-> same_ref (region es) regn \/ (regionName es = "*" /\ region es = None).
Proof.
  rewrite orb_true_iff, andb_true_iff, optreg_eqb_true_iff, String.eqb_eq,
    optreg_eqb_None_iff.
  reflexivity.
Qed.

Lemma containsb_iff (px py : Z) (r : Region) : containsb px py r = true <-> contains px py r.
Proof.
  unfold containsb, contains.
  rewrite !andb_true_iff, !Z.leb_le. tauto.
Qed.

(** The region loop of [pick] appends exactly the regions containing the
    point, in declaration order. *)
Lemma pick_loop (px py : Z) (regs acc : list Region) :
  fold_left
    (fun pickList reg =>
       if (px >=? x reg) && (px <=? x reg + w reg) then
         if (py >=? y reg) && (py <=? y reg + h reg) then app pickList [reg]
         else pickList
       else pickList) regs acc
  = app acc (filter (containsb px py) regs).
Proof.
  revert acc; induction regs as [|r regs IH]; intro acc; simpl.
  - now rewrite app_nil_r.
  - rewrite IH. unfold containsb.
    rewrite (Z.geb_leb px (x r)), (Z.geb_leb py (y r)).
    destruct (x r <=? px), (px <=? x r + w r), (y r <=? py), (py <=? y r + h r);
      simpl; try reflexivity; now rewrite <- app_assoc.
Qed.

(** ** C2 *)

(** C2: [EventSpec.match] returns false for a [nevermatch] spec; for [any]
    it returns regionMatches alone; for [release_none] eventMatches alone;
    for every other event type eventMatches AND regionMatches, where
    eventMatches is "the spec's event type equals the event's" and
    regionMatches is "the bound region is the event's region (same object,
    or both absent), or the region name is * and no region is bound". *)
Theorem match_cases (es : EventSpec) (evt : EventType) (regn : option Region) :
  match_ es evt regn = true <->
  match evtType es with
  | nevermatch => False
  | any => same_ref (region es) regn \/ (regionName es = "*" /\ region es = None)
  | release_none => evtType es = evt
  | _ => evtType es = evt /\
         (same_ref (region es) regn \/ (regionName es = "*" /\ region es = None))
  end.
Proof.
  unfold match_.
  destruct (evtType es) eqn:E;
    rewrite ?andb_true_iff, ?reg_match_iff, ?EventType_eqb_true_iff;
    try tauto; split; intro H; try discriminate; contradiction.
Qed.

(** ** C4 *)

(** C4: with an FSM installed, a region is in [pick(px, py)] iff it is one
    of the FSM's regions and [x <= px <= x + w] and [y <= py <= y + h] (all
    edges inclusive); and the result is the declared region list, restricted
    to the regions containing the point, reversed. *)
Theorem pick_spec (it : FSMInteractor) (f : FSM) (px py : Z) :
  fsm it = Some f ->
  pick it px py = rev (filter (containsb px py) (regions f)) /\
  (forall r, In r (pick it px py) <-> In r (regions f) /\ contains px py r).
Proof.
  intro Hf.
  assert (Hp : pick it px py = rev (filter (containsb px py) (regions f))).
  { unfold pick; rewrite Hf, pick_loop; reflexivity. }
  split; [exact Hp|].
  intro r; rewrite Hp, <- in_rev, filter_In, containsb_iff; reflexivity.
Qed.

Lemma pick_spec_witness :
  fsm (sampleInteractor []) = Some sampleFSM /\
  pick (sampleInteractor []) 7 7 = rev (filter (containsb 7 7) (regions sampleFSM)) /\
  (forall r, In r (pick (sampleInteractor []) 7 7) <->
             In r (regions sampleFSM) /\ contains 7 7 r).
Proof.
  split; [reflexivity|].
  apply (pick_spec (sampleInteractor []) sampleFSM 7 7); reflexivity.
Defined.

(** ** C1 *)

Lemma fold_left_map_pair {S : Type} (act : S -> EventType -> option Region -> S)
  (ev : EventType) (l : list Region) (s : S) :
  fold_left (fun s0 '(e, r) => act s0 e r) (map (fun r => (ev, Some r)) l) s
  = fold_left (fun s0 r => act s0 ev (Some r)) l s.
Proof.
  revert s; induction l as [|r l IH]; intro s; simpl; [reflexivity|apply IH].
Qed.

(** [deliver] makes the calls listed by [spec_events], in that order, for
    every handler. *)
Lemma deliver_spec_events {S : Type} (act : S -> EventType -> option Region -> S)
  (what : RawKind) (cur prev : list Region) (s : S) :
  deliver act what cur prev s =
  fold_left (fun s0 '(e, r) => act s0 e r) (spec_events what cur prev) s.
Proof.
  unfold deliver, spec_events.
  rewrite !fold_left_app, !fold_left_map_pair.
  destruct what; simpl.
  - destruct cur; [reflexivity|]. rewrite fold_left_map_pair. reflexivity.
  - rewrite fold_left_map_pair. destruct cur; reflexivity.
  - destruct cur as [|r cur]; simpl; [reflexivity|].
    rewrite (fold_left_map_pair act release cur). reflexivity.
Qed.

(** C1: with an FSM installed, [dispatchRawEvent(what, x, y)] hands to
    [actOnEvent] exactly the events of [spec_events what current previous]
    in that order ([current = pick(x, y)], [previous] the stored pick list):
    one [exit] per region of previous - current (previous's order), one
    [enter] per region of current - previous (current's order), then one
    [move_inside]/[press]/[release] per region of current (current's order),
    or a single [release_none] with no region for a release over no region;
    the first conjunct states it for any handler, the second for the FSM's
    [actOnEvent].  Afterwards the stored pick list is [current]. *)
Theorem dispatchRawEvent_order (it : FSMInteractor) (f : FSM) (out : list string)
  (what : RawKind) (lx ly : Z) :
  fsm it = Some f ->
  (forall (S : Type) (act : S -> EventType -> option Region -> S) (s : S),
      deliver act what (pick it lx ly) (lastPickedRegions it) s =
      fold_left (fun s0 '(e, r) => act s0 e r)
        (spec_events what (pick it lx ly) (lastPickedRegions it)) s) /\
  dispatchRawEvent it out what lx ly =
  (let '(f', out') :=
     fold_left (fun '(f0, o) '(e, r) => actOnEvent f0 o e r)
       (spec_events what (pick it lx ly) (lastPickedRegions it)) (f, out) in
   ({| ix := ix it; iy := iy it; fsm := Some f';
       lastPickedRegions := pick it lx ly |}, out')).
Proof.
  intro Hf. split.
  - intros S act s. apply deliver_spec_events.
  - unfold dispatchRawEvent. rewrite Hf.
    rewrite (deliver_spec_events (fun '(f0, o) e r => actOnEvent f0 o e r)).
    assert (E : forall l (st : FSM * list string),
               fold_left (fun s0 '(e, r) => (fun '(f0, o) e0 r0 => actOnEvent f0 o e0 r0) s0 e r) l st
               = fold_left (fun '(f0, o) '(e, r) => actOnEvent f0 o e r) l st).
    { induction l as [|[e r] l IH]; intro st; simpl; [reflexivity|].
      destruct st as [f0 o]; apply IH. }
    rewrite E. reflexivity.
Qed.

Lemma dispatchRawEvent_order_witness :
  fsm (sampleInteractor [regA]) = Some sampleFSM /\
  spec_events Raw_move (pick (sampleInteractor [regA]) 25 5) [regA] =
    [(exit, Some regA); (enter, Some regB); (move_inside, Some regB)] /\
  dispatchRawEvent (sampleInteractor [regA]) [] Raw_move 25 5 =
  (let '(f', out') :=
     fold_left (fun '(f0, o) '(e, r) => actOnEvent f0 o e r)
       (spec_events Raw_move (pick (sampleInteractor [regA]) 25 5) [regA]) (sampleFSM, []) in
   ({| ix := 0; iy := 0; fsm := Some f'; lastPickedRegions := [regB] |}, out')).
Proof.
  split; [reflexivity|]. split; [reflexivity|].
  apply (dispatchRawEvent_order (sampleInteractor [regA]) sampleFSM [] Raw_move 25 5).
  reflexivity.
Defined.

(** ** C3 *)

(** C3: when the current state's transitions are [pre ++ t :: post], no
    transition of [pre] matches and [t] matches, [actOnEvent] runs the
    actions of [t] in declared order, each with the triggering event type and
    region, then moves to [t]'s target; the result does not depend on
    [post]. *)
Theorem actOnEvent_first_match (f : FSM) (out : list string) (evt : EventType)
  (reg : option Region) (i : nat) (st : State) (pre : list Transition)
  (t : Transition) (post : list Transition) :
  currentState f = Some i ->
  nth_error (states f) i = Some st ->
  transitions st = app pre (t :: post) ->
  forallb (fun t' => negb (Transition_match t' evt reg)) pre = true ->
  Transition_match t evt reg = true ->
  actOnEvent f out evt reg =
  (let '(rs, out') :=
     fold_left (fun '(rs0, o) a => execute a evt reg rs0 o) (actions t) (regions f, out) in
   (with_regions_current f rs (target t), out')).
Proof.
  intros Hc Hs Ht Hpre Hm.
  unfold actOnEvent; rewrite Hc, Hs, Ht. clear Ht.
  induction pre as [|t' pre IH]; simpl in *.
  - rewrite Hm. reflexivity.
  - apply andb_true_iff in Hpre as [H1 H2].
    apply negb_true_iff in H1. rewrite H1. now apply IH.
Qed.

Definition pressA : Transition :=
  {| onEvent := mkEventSpec press "A" (Some regA);
     actions := [mkAction print "" None "pressed A"];
     targetName := "down"; target := Some 1%nat |}.

(** A state whose first transition does not match a press on A, whose second
    matches it with three actions, and whose third (a wildcard [any]) would
    match too. *)
Definition pressB_t : Transition :=
  {| onEvent := mkEventSpec press "B" (Some regB);
     actions := [mkAction print "" None "pressed B"];
     targetName := "start"; target := Some 0%nat |}.

Definition pressA3_t : Transition :=
  {| onEvent := mkEventSpec press "A" (Some regA);
     actions := [mkAction print "" None "one";
                 mkAction set_image "B" (Some regB) "b2.png";
                 mkAction print_event "" None "two: "];
     targetName := "down"; target := Some 1%nat |}.

Definition anyStar_t : Transition :=
  {| onEvent := mkEventSpec any "*" None;
     actions := [mkAction print "" None "any"];
     targetName := "start"; target := Some 0%nat |}.

Definition multiFSM : FSM :=
  {| regions := [regA; regB];
     states := [ {| st_name := "start"; transitions := [pressB_t; pressA3_t; anyStar_t] |};
                 {| st_name := "down"; transitions := [] |} ];
     startState := Some 0%nat; currentState := Some 0%nat |}.

Lemma actOnEvent_first_match_witness :
  forallb (fun t' => negb (Transition_match t' press (Some regA))) [pressB_t] = true /\
  Transition_match anyStar_t press (Some regA) = true /\
  actOnEvent multiFSM [] press (Some regA) =
  (with_regions_current multiFSM
     [regA; mkRegion 1 "B" 20 0 10 10 "b2.png"] (Some 1%nat),
   ["one"; "two: press(A)"]).
Proof.
  split; [reflexivity|]. split; [reflexivity|].
  rewrite (actOnEvent_first_match multiFSM [] press (Some regA) 0
             (nth 0 (states multiFSM) (mkState "" [])) [pressB_t] pressA3_t [anyStar_t]);
    reflexivity.
Defined.

(** ** C6 *)

(** C6: when no transition of the current state matches, [actOnEvent]
    leaves the FSM (current state and regions) and the output unchanged. *)
Theorem actOnEvent_no_match (f : FSM) (out : list string) (evt : EventType)
  (reg : option Region) (i : nat) (st : State) :
  currentState f = Some i ->
  nth_error (states f) i = Some st ->
  forallb (fun t => negb (Transition_match t evt reg)) (transitions st) = true ->
  actOnEvent f out evt reg = (f, out).
Proof.
  intros Hc Hs Hn.
  unfold actOnEvent; rewrite Hc, Hs.
  induction (transitions st) as [|t ts IH]; simpl in *; [reflexivity|].
  apply andb_true_iff in Hn as [H1 H2].
  apply negb_true_iff in H1. rewrite H1. now apply IH.
Qed.

Lemma actOnEvent_no_match_witness :
  actOnEvent sampleFSM ["x"] enter (Some regB) = (sampleFSM, ["x"]).
Proof.
  apply (actOnEvent_no_match sampleFSM ["x"] enter (Some regB) 0
           (nth 0 (states sampleFSM) (mkState "" []))); reflexivity.
Defined.

(** ** C9 *)

(** C9: [reset] sets the current state to the start state and leaves the
    regions (with their images), the states and the start state unchanged;
    the start state of a constructed FSM is its first declared state (index
    0), absent when no state is declared. *)
Theorem reset_spec (f : FSM) :
  currentState (reset f) = startState f /\
  regions (reset f) = regions f /\
  states (reset f) = states f /\
  startState (reset f) = startState f /\
  (forall regs sts,
      match FSM_new regs sts with
      | Ok f' => startState f' = match sts with [] => None | _ :: _ => Some 0%nat end
      | Throw _ => True
      end).
Proof.
  repeat split.
  intros regs sts. unfold FSM_new, bind.
  destruct (mapRes _ sts); reflexivity.
Qed.

(** ** C10 *)

(** C10: the FSM built by the constructor from an empty state list has no
    start and no current state, and [actOnEvent] on it returns at once,
    changing nothing, for every event. *)
Theorem actOnEvent_empty_states (regs : list Region) :
  exists f, FSM_new regs [] = Ok f /\ startState f = None /\ currentState f = None /\
            forall out evt reg, actOnEvent f out evt reg = (f, out).
Proof.
  eexists. split; [reflexivity|]. split; [reflexivity|]. split; [reflexivity|].
  intros out evt reg. reflexivity.
Qed.

(** ** C7 *)

(** [find] returns the first element satisfying the predicate. *)
Lemma find_first {A} (p : A -> bool) (l : list A) (a : A) :
  find p l = Some a ->
  exists pre post, l = app pre (a :: post) /\ p a = true /\
                   forallb (fun b => negb (p b)) pre = true.
Proof.
  induction l as [|b l IH]; simpl; [discriminate|].
  destruct (p b) eqn:E; intro H.
  - injection H as <-. exists [], l. auto.
  - destruct (IH H) as (pre & post & -> & Ha & Hpre).
    exists (b :: pre), post. simpl. rewrite E, Hpre. auto.
Qed.

Lemma find_none_forall {A} (p : A -> bool) (l : list A) :
  find p l = None -> forall a, In a l -> p a = false.
Proof.
  induction l as [|b l IH]; simpl; [tauto|].
  destruct (p b) eqn:E; [discriminate|].
  intros H a [<-|Ha]; [exact E|exact (IH H a Ha)].
Qed.

(** C7 counterexample: a [nevermatch] spec naming an existing region gets
    that region bound. *)
Lemma bindRegion_nevermatch_bound :
  EventSpec_bindRegion (EventSpec_new nevermatch "A") [regA; regB] =
  Ok (mkEventSpec nevermatch "A" (Some regA)).
Proof. reflexivity. Qed.

(** C7 (amended): for an EventSpec with no region bound yet, [bindRegion]
    - leaves the region absent when the region name is "*";
    - otherwise binds the first region of the collection whose name equals
      the region name exactly, whatever the event type (nevermatch,
      release_none and any included);
    - when no region has that name, leaves the region absent if the event
      type is nevermatch, or if the name is "" and the type is release_none
      or any, and otherwise fails with an error reported through
      [Err.emit]. *)
Theorem EventSpec_bindRegion_spec (es : EventSpec) (regs : list Region) :
  region es = None ->
  match EventSpec_bindRegion es regs with
  | Ok es' =>
      evtType es' = evtType es /\ regionName es' = regionName es /\
      ((regionName es = "*" /\ region es' = None)
       \/ (regionName es <> "*" /\
           exists r pre post, region es' = Some r /\ regs = app pre (r :: post) /\
             name r = regionName es /\ Forall (fun r' => name r' <> regionName es) pre)
       \/ (regionName es <> "*" /\ region es' = None /\
           (forall r, In r regs -> name r <> regionName es) /\
           (evtType es = nevermatch \/
            (regionName es = "" /\ (evtType es = release_none \/ evtType es = any)))))
  | Throw e =>
      (exists msg, e = ErrEmitted msg) /\
      regionName es <> "*" /\ (forall r, In r regs -> name r <> regionName es) /\
      evtType es <> nevermatch /\
      ~ (regionName es = "" /\ (evtType es = release_none \/ evtType es = any))
  end.
Proof.
  intro Hnone. unfold EventSpec_bindRegion.
  destruct (String.eqb_spec (regionName es) "*") as [Hs|Hs].
  { simpl. split; [reflexivity|]. split; [reflexivity|]. left; auto. }
  destruct (find (fun reg => String.eqb (regionName es) (name reg)) regs) as [r|] eqn:F.
  - destruct (find_first _ _ _ F) as (pre & post & Hregs & Hr & Hpre).
    simpl. split; [reflexivity|]. split; [reflexivity|]. right; left.
    split; [exact Hs|]. exists r, pre, post.
    apply String.eqb_eq in Hr. split; [reflexivity|]. split; [exact Hregs|].
    split; [auto|].
    apply Forall_forall. intros r' Hr' Heq.
    apply forallb_forall with (x := r') in Hpre; [|exact Hr'].
    rewrite Heq, String.eqb_refl in Hpre. discriminate.
  - assert (Hno : forall r, In r regs -> name r <> regionName es).
    { intros r Hr Heq. pose proof (find_none_forall _ _ F r Hr) as Hf.
      cbn beta in Hf. rewrite Heq, String.eqb_refl in Hf. discriminate. }
    destruct (String.eqb (regionName es) "") eqn:He;
      [apply String.eqb_eq in He | apply String.eqb_neq in He];
      destruct (evtType es) eqn:E; simpl;
      first [ (split; [congruence|]; split; [reflexivity|]; right; right;
               split; [exact Hs|]; split; [exact Hnone|]; split; [exact Hno|];
               rewrite ?He; auto)
            | (split; [eexists; reflexivity|]; split; [exact Hs|];
               split; [exact Hno|]; split; [discriminate|];
               intros [H1 [H2|H2]]; congruence) ].
Qed.

Lemma EventSpec_bindRegion_spec_witness :
  region (EventSpec_new nevermatch "A") = None /\
  match EventSpec_bindRegion (EventSpec_new nevermatch "A") [regA; regB] with
  | Ok es' =>
      evtType es' = nevermatch /\ regionName es' = "A" /\
      (("A" = "*" /\ region es' = None)
       \/ ("A" <> "*" /\
           exists r pre post, region es' = Some r /\ [regA; regB] = app pre (r :: post) /\
             name r = "A" /\ Forall (fun r' => name r' <> "A") pre)
       \/ ("A" <> "*" /\ region es' = None /\
           (forall r, In r [regA; regB] -> name r <> "A") /\
           (nevermatch = nevermatch \/
            ("A" = "" /\ (nevermatch = release_none \/ nevermatch = any)))))
  | Throw e =>
      (exists msg, e = ErrEmitted msg) /\
      "A" <> "*" /\ (forall r, In r [regA; regB] -> name r <> "A") /\
      nevermatch <> nevermatch /\
      ~ ("A" = "" /\ (nevermatch = release_none \/ nevermatch = any))
  end.
Proof.
  split; [reflexivity|].
  exact (EventSpec_bindRegion_spec (EventSpec_new nevermatch "A") [regA; regB] eq_refl).
Defined.

(** ** C8 *)

(** C8 (code bug): [draw] called with [showDebugging = false] still asks
    every region to draw with debugging on, since the loop body assigns
    [showDebugging = true] before each [reg.draw]. *)
Theorem draw_forces_debugging :
  draw (sampleInteractor []) false =
  [Save; Translate 0 0; DrawRegion regA true; Restore;
   Save; Translate 20 0; DrawRegion regB true; Restore;
   Save; Translate 5 5; DrawRegion regC true; Restore].
Proof. reflexivity. Qed.

(** ** C5 *)

(** What it means for the names of a constructed FSM to be resolved. *)
Definition es_resolved (regs : list Region) (es : EventSpec) : Prop :=
  (regionName es = "*" /\ region es = None)
  \/ (exists r, region es = Some r /\ In r regs /\ name r = regionName es)
  \/ (region es = None /\
      (evtType es = nevermatch \/
       (regionName es = "" /\ (evtType es = release_none \/ evtType es = any)))).

Definition act_resolved (regs : list Region) (a : Action) : Prop :=
  (exists r, onRegion a = Some r /\ In r regs /\ name r = onRegionName a)
  \/ (onRegion a = None /\ (actType a = none \/ actType a = print \/ actType a = print_event)).

Definition trans_resolved (names : list string) (regs : list Region) (t : Transition) : Prop :=
  (exists i, target t = Some i /\ nth_error names i = Some (targetName t)) /\
  es_resolved regs (onEvent t) /\ Forall (act_resolved regs) (actions t).

Definition fsm_resolved (f : FSM) : Prop :=
  Forall (fun s => Forall (trans_resolved (map st_name (states f)) (regions f)) (transitions s))
    (states f).

Lemma mapRes_Forall2 {A B} (g : A -> Res B) (l : list A) (l' : list B) :
  mapRes g l = Ok l' -> Forall2 (fun a b => g a = Ok b) l l'.
Proof.
  revert l'; induction l as [|a l IH]; intros l' H; simpl in H.
  - injection H as <-. constructor.
  - destruct (g a) as [b|e] eqn:Ga; simpl in H; [|discriminate].
    destruct (mapRes g l) as [bs|e] eqn:M; simpl in H; [|discriminate].
    injection H as <-. constructor; [exact Ga|]. apply IH; reflexivity.
Qed.

Lemma find_index_spec {A} (p : A -> bool) (l : list A) (i : nat) :
  find_index p l = Some i -> exists a, nth_error l i = Some a /\ p a = true.
Proof.
  revert i; induction l as [|a l IH]; intros i H; simpl in H; [discriminate|].
  destruct (p a) eqn:E.
  - injection H as <-. exists a. auto.
  - destruct (find_index p l) as [j|] eqn:F; simpl in H; [|discriminate].
    injection H as <-. destruct (IH j eq_refl) as (b & Hb & Pb). exists b. auto.
Qed.

Lemma es_bind_resolved (es es' : EventSpec) (regs : list Region) :
  region es = None -> EventSpec_bindRegion es regs = Ok es' ->
  es_resolved regs es' /\ regionName es' = regionName es /\ evtType es' = evtType es.
Proof.
  intros Hn. unfold EventSpec_bindRegion, es_resolved.
  destruct (String.eqb_spec (regionName es) "*") as [Hs|Hs].
  { intro H; injection H as <-; simpl; auto. }
  destruct (find (fun reg => String.eqb (regionName es) (name reg)) regs) as [r|] eqn:F.
  - intro H; injection H as <-; simpl.
    destruct (find_first _ _ _ F) as (pre & post & Hr & Hp & _).
    apply String.eqb_eq in Hp.
    split; [|auto]. right; left. exists r. split; [reflexivity|]. split; [|auto].
    rewrite Hr. apply in_or_app. simpl; auto.
  - intro H.
    assert (Hes : es' = es /\ (evtType es = nevermatch \/
              (regionName es = "" /\ (evtType es = release_none \/ evtType es = any)))).
    { destruct (evtType es) eqn:E; simpl in H;
        destruct (String.eqb (regionName es) "") eqn:He; simpl in H;
        try discriminate; injection H as <-;
        try apply String.eqb_eq in He; auto. }
    destruct Hes as [-> Hx]. split; [|auto]. right; right. auto.
Qed.

Lemma act_bind_resolved (a a' : Action) (regs : list Region) :
  Action_bindRegion a regs = Ok a' -> act_resolved regs a'.
Proof.
  unfold Action_bindRegion, act_resolved.
  destruct (find (fun reg => String.eqb (onRegionName a) (name reg)) regs) as [r|] eqn:F.
  - intro H; injection H as <-; simpl. left. exists r.
    destruct (find_first _ _ _ F) as (pre & post & Hr & Hp & _).
    apply String.eqb_eq in Hp. split; [reflexivity|]. split; [|auto].
    rewrite Hr. apply in_or_app. simpl; auto.
  - destruct (actType a) eqn:E; simpl; intro H; try discriminate;
      injection H as <-; simpl; right; rewrite ?E; auto.
Qed.

Lemma bind_transition_resolved (sts : list State) (regs : list Region) (t t' : Transition) :
  region (onEvent t) = None -> bind_transition sts regs t = Ok t' ->
  trans_resolved (map st_name sts) regs t'.
Proof.
  intros Hn. unfold bind_transition, Transition_bindTarget.
  destruct (find_index (fun s => String.eqb (targetName t) (st_name s)) sts) as [i|] eqn:Fi;
    simpl; [|discriminate].
  destruct (EventSpec_bindRegion (onEvent t) regs) as [es|e] eqn:B; simpl; [|discriminate].
  destruct (mapRes (fun act => Action_bindRegion act regs) (actions t)) as [acts|e] eqn:M;
    simpl; [|discriminate].
  intro H; injection H as <-.
  split; [|split].
  - exists i. split; [reflexivity|]. simpl.
    destruct (find_index_spec _ _ _ Fi) as (s & Hs & Hp).
    apply String.eqb_eq in Hp. rewrite nth_error_map, Hs. simpl. now rewrite Hp.
  - simpl. exact (proj1 (es_bind_resolved _ _ _ Hn B)).
  - simpl. apply mapRes_Forall2 in M.
    induction M as [|a a' l l' Ha _ IH]; constructor; [|exact IH].
    exact (act_bind_resolved _ _ _ Ha).
Qed.

Definition fresh_states (sts : list State) : Prop :=
  Forall (fun s => Forall (fun t => region (onEvent t) = None) (transitions s)) sts.

Lemma bind_states_resolved (all : list State) (regs : list Region) (l l' : list State) :
  Forall2 (fun st st' =>
             (let! ts := mapRes (bind_transition all regs) (transitions st) in
              Ok {| st_name := st_name st; transitions := ts |}) = Ok st') l l' ->
  fresh_states l ->
  Forall (fun s => Forall (trans_resolved (map st_name all) regs) (transitions s)) l' /\
  map st_name l' = map st_name l.
Proof.
  intros M. induction M as [|st st' l l' Hs _ IH]; intro Hf; [split; constructor|].
  inversion Hf as [|? ? Hf1 Hf2]; subst.
  destruct (IH Hf2) as [IH1 IH2].
  destruct (mapRes (bind_transition all regs) (transitions st)) as [ts|e] eqn:Mt;
    simpl in Hs; [|discriminate].
  injection Hs as <-. simpl. split; [|now rewrite IH2].
  constructor; [|exact IH1]. simpl.
  apply mapRes_Forall2 in Mt. clear IH IH1 IH2 Hf2 Hf.
  induction Mt as [|t t' ts0 ts0' Ht _ IHt]; [constructor|].
  inversion Hf1; subst. constructor; [|auto].
  eapply bind_transition_resolved; eassumption.
Qed.

Lemma FSM_new_resolved (regs : list Region) (sts : list State) (f : FSM) :
  fresh_states sts -> FSM_new regs sts = Ok f -> fsm_resolved f /\ regions f = regs.
Proof.
  intro Hf. unfold FSM_new.
  destruct (mapRes _ sts) as [sts'|e] eqn:M; simpl; [|discriminate].
  intro H; injection H as <-. unfold fsm_resolved; simpl. split; [|reflexivity].
  apply mapRes_Forall2 in M.
  destruct (bind_states_resolved sts regs sts sts' M Hf) as [H1 H2].
  now rewrite H2.
Qed.

Lemma existsb_eqb_false (n : string) (l : list string) :
  existsb (String.eqb n) l = false -> ~ In n l.
Proof.
  intros H Hin.
  assert (existsb (String.eqb n) l = true) as Ht.
  { apply existsb_exists. exists n. split; [exact Hin|apply String.eqb_refl]. }
  congruence.
Qed.

Lemma NoDup_snoc {A} (l : list A) (a : A) : NoDup l -> ~ In a l -> NoDup (app l [a]).
Proof.
  intros Hl Ha. apply NoDup_app; auto.
  - constructor; [simpl; tauto|constructor].
  - intros b Hb [<-|[]]. contradiction.
Qed.


Lemma add_states_nodup (sjs : list State_json) (allNames : list string)
  (sts sts' : list State) :
  NoDup allNames -> add_states sjs allNames sts = Ok sts' ->
  NoDup (app allNames (map sj_name sjs)) /\
  sts' = app sts (map State_fromJson sjs).
Proof.
  revert allNames sts; induction sjs as [|sj sjs IH]; intros allNames sts Hn H; simpl in *.
  - injection H as <-. now rewrite !app_nil_r.
  - destruct (existsb (String.eqb (sj_name sj)) allNames) eqn:E; [discriminate|].
    destruct (IH _ _ (NoDup_snoc _ _ Hn (existsb_eqb_false _ _ E)) H) as [H1 H2].
    rewrite <- app_assoc in H1, H2. auto.
Qed.

Lemma State_fromJson_fresh (sjs : list State_json) : fresh_states (map State_fromJson sjs).
Proof.
  unfold fresh_states. apply Forall_map, Forall_forall. intros sj _. simpl.
  apply Forall_map, Forall_forall. intros tj _. reflexivity.
Qed.

(** A description with a duplicate region name *)
Definition dupRegionsJson : FSM_json :=
  {| fj_regions := Some [mkRegion_json "A" 0 0 10 10 ""; mkRegion_json "A" 5 5 1 1 ""];
     fj_states := Some [mkState_json "start" []] |}.

(** C5 (code bug): with an FSM installed, a load whose body does not parse,
    or whose description declares region "A" twice, fails and leaves the
    previously installed FSM in place: the FSM reference is not cleared,
    although the doc comment of [startLoadFromJson] says it is set to
    [undefined] on failure. *)
Lemma load_failure_keeps_fsm :
  fsm (fst (startLoadFromJson (sampleInteractor []) "fsm.json" (Response true None)))
    = Some sampleFSM /\
  snd (startLoadFromJson (sampleInteractor []) "fsm.json" (Response true None))
    = Throw JsonSyntaxError /\
  fsm (fst (startLoadFromJson (sampleInteractor []) "fsm.json"
              (Response true (Some dupRegionsJson)))) = Some sampleFSM /\
  snd (startLoadFromJson (sampleInteractor []) "fsm.json"
         (Response true (Some dupRegionsJson)))
    = Throw (ErrEmitted "Duplicate region 'A' declaration in FSM").
Proof. repeat split; reflexivity. Qed.


(** * Further properties of the code *)

(** The immutable part of a Region object: identity, name, position, size *)
Definition geom (r : Region) : nat * string * Z * Z * Z * Z :=
  (rid r, name r, x r, y r, w r, h r).

Lemma set_imageLoc_geom (regs : list Region) (r : Region) (v : string) :
  map geom (set_imageLoc regs r v) = map geom regs.
Proof.
  unfold set_imageLoc. rewrite map_map. apply map_ext.
  intro r'. destruct (reg_eqb r' r); reflexivity.
Qed.

Lemma execute_geom (a : Action) (evt : EventType) (reg : option Region)
  (regs : list Region) (out : list string) :
  map geom (fst (execute a evt reg regs out)) = map geom regs.
Proof.
  unfold execute.
  destruct (actType a); try destruct (onRegion a); simpl;
    rewrite ?set_imageLoc_geom; reflexivity.
Qed.

Lemma run_actions_geom (acts : list Action) (evt : EventType) (reg : option Region)
  (regs : list Region) (out : list string) :
  map geom (fst (run_actions acts evt reg regs out)) = map geom regs.
Proof.
  unfold run_actions. revert regs out.
  induction acts as [|a acts IH]; intros regs out; simpl; [reflexivity|].
  destruct (execute a evt reg regs out) as [rs o] eqn:E.
  rewrite IH. rewrite <- (execute_geom a evt reg regs out), E. reflexivity.
Qed.

(** X1: [Action.execute] never moves, resizes, renames or reorders a region.
    Only a [set_image]/[clear_image] action with a bound region changes an
    image: that of the region object it is bound to, which becomes [param]
    or "".  Only [print] and [print_event] write output, exactly one line. *)
Theorem execute_effect (a : Action) (evt : EventType) (reg : option Region)
  (regs : list Region) (out : list string) :
  map geom (fst (execute a evt reg regs out)) = map geom regs /\
  map imageLoc (fst (execute a evt reg regs out)) =
  map (fun r0 =>
         match actType a, onRegion a with
         | set_image, Some r => if Nat.eqb (rid r0) (rid r) then param a else imageLoc r0
         | clear_image, Some r => if Nat.eqb (rid r0) (rid r) then "" else imageLoc r0
         | _, _ => imageLoc r0
         end) regs /\
  (exists extra, snd (execute a evt reg regs out) = app out extra /\
     List.length extra = match actType a with print | print_event => 1%nat | _ => 0%nat end).
Proof.
  split; [apply execute_geom|]. split.
  - unfold execute, set_imageLoc.
    destruct (actType a), (onRegion a) as [r|]; simpl; rewrite ?map_map;
      apply map_ext; intro r0; unfold reg_eqb;
      try destruct (Nat.eqb (rid r0) (rid r)); reflexivity.
  - unfold execute.
    destruct (actType a); try destruct (onRegion a); simpl;
      first [ exists []; now rewrite app_nil_r
            | eexists; split; reflexivity ].
Qed.

(** Transitions' target indices all point into the state list. *)
Definition targets_ok (f : FSM) : Prop :=
  Forall (fun s => Forall (fun t => exists i st, target t = Some i /\
                                              nth_error (states f) i = Some st)
                          (transitions s)) (states f).

(** A live FSM: targets resolved, and a current state that exists. *)
Definition live (f : FSM) : Prop :=
  targets_ok f /\ exists i st, currentState f = Some i /\ nth_error (states f) i = Some st.

(** X2: [FSM.actOnEvent] never changes the FSM's states or start state, nor
    the identity, name, position or size of any region (only the current
    state and region images can change). *)
Theorem actOnEvent_frame (f : FSM) (out : list string) (evt : EventType)
  (reg : option Region) :
  states (fst (actOnEvent f out evt reg)) = states f /\
  startState (fst (actOnEvent f out evt reg)) = startState f /\
  map geom (regions (fst (actOnEvent f out evt reg))) = map geom (regions f).
Proof.
  unfold actOnEvent.
  destruct (currentState f) as [i|]; [|auto].
  destruct (nth_error (states f) i) as [st|]; [|auto].
  induction (transitions st) as [|t ts IH]; [auto|].
  destruct (Transition_match t evt reg); [|exact IH].
  pose proof (run_actions_geom (actions t) evt reg (regions f) out) as G.
  destruct (run_actions (actions t) evt reg (regions f) out) as [rs o].
  simpl in *. auto.
Qed.

Lemma actOnEvent_live_aux (f : FSM) (out : list string) (evt : EventType)
  (reg : option Region) :
  live f -> live (fst (actOnEvent f out evt reg)).
Proof.
  intros [Ht (i & st & Hc & Hs)].
  assert (Hst : Forall (fun t => exists j st', target t = Some j /\
                                               nth_error (states f) j = Some st')
                       (transitions st)).
  { unfold targets_ok in Ht. rewrite Forall_forall in Ht.
    exact (Ht st (nth_error_In _ _ Hs)). }
  unfold actOnEvent. rewrite Hc, Hs.
  revert Hst. induction (transitions st) as [|t ts IH]; intro Hst; simpl.
  - split; [exact Ht|]. eauto.
  - inversion Hst as [|? ? Ht0 Hts]; subst.
    destruct (Transition_match t evt reg); [|exact (IH Hts)].
    destruct (run_actions (actions t) evt reg (regions f) out) as [rs o].
    simpl. split; [exact Ht|].
    destruct Ht0 as (j & st' & Hj & Hs'). exists j, st'. auto.
Qed.

(** X3: a live FSM (every transition target resolved to an existing state,
    and a current state that exists) stays live across [actOnEvent], and
    the FSM of an interactor stays live across [dispatchRawEvent], whatever
    the events. *)
Theorem live_preserved (f : FSM) (it : FSMInteractor) (out : list string)
  (evt : EventType) (reg : option Region) (what : RawKind) (px py : Z) :
  live f ->
  live (fst (actOnEvent f out evt reg)) /\
  (fsm it = Some f ->
   exists f', fsm (fst (dispatchRawEvent it out what px py)) = Some f' /\ live f').
Proof.
  intro Hl. split; [exact (actOnEvent_live_aux f out evt reg Hl)|].
  intro Hf. unfold dispatchRawEvent. rewrite Hf.
  rewrite (deliver_spec_events (fun '(f0, o) e r => actOnEvent f0 o e r)).
  assert (G : forall l (st : FSM * list string), live (fst st) ->
             live (fst (fold_left (fun s0 '(e, r) =>
                                     (fun '(f0, o) e0 r0 => actOnEvent f0 o e0 r0) s0 e r)
                                  l st))).
  { induction l as [|[e r] l IH]; intros [f0 o] H; simpl; [exact H|].
    apply IH. apply actOnEvent_live_aux. exact H. }
  specialize (G (spec_events what (pick it px py) (lastPickedRegions it)) (f, out) Hl).
  destruct (fold_left _ _ (f, out)) as [f' o']. exists f'. auto.
Qed.

Lemma live_preserved_witness :
  live sampleFSM /\ live (fst (actOnEvent sampleFSM [] press (Some regA))) /\
  (fsm (sampleInteractor []) = Some sampleFSM ->
   exists f', fsm (fst (dispatchRawEvent (sampleInteractor []) [] Raw_press 1 1)) = Some f'
              /\ live f').
Proof.
  assert (Hl : live sampleFSM).
  { split.
    - repeat constructor; eexists; eexists; split; reflexivity.
    - eexists; eexists; split; reflexivity. }
  split; [exact Hl|].
  exact (live_preserved sampleFSM (sampleInteractor []) [] press (Some regA) Raw_press 1 1 Hl).
Defined.

Lemma FSM_fromJson_ok (d : FSM_json) (f : FSM) :
  FSM_fromJson d = Ok f ->
  exists rjs sjs regs, fj_regions d = Some rjs /\ fj_states d = Some sjs /\ sjs <> [] /\
    add_regions rjs [] [] = Ok regs /\ FSM_new regs (map State_fromJson sjs) = Ok f.
Proof.
  intro Hd. unfold FSM_fromJson in Hd.
  destruct (fj_regions d) as [rjs|] eqn:Hr; cbn beta iota delta [bind] in Hd; [|discriminate].
  destruct (add_regions rjs [] []) as [regs|e] eqn:Ar;
    cbn beta iota delta [bind] in Hd; [|discriminate].
  destruct (fj_states d) as [sjs|] eqn:Hs; cbn beta iota delta [bind] in Hd; [|discriminate].
  destruct sjs as [|sj sjs0]; cbn beta iota delta [bind] in Hd; [discriminate|].
  destruct (add_states (sj :: sjs0) [] []) as [sts|e] eqn:As;
    cbn beta iota delta [bind] in Hd; [|discriminate].
  apply add_states_nodup in As as [_ ->]; [|constructor].
  exists rjs, (sj :: sjs0), regs. repeat split; auto; discriminate.
Qed.

Lemma add_regions_shape (rjs : list Region_json) (allNames : list string)
  (acc regs : list Region) :
  map rid acc = seq 0 (List.length acc) ->
  add_regions rjs allNames acc = Ok regs ->
  map name regs = app (map name acc) (map rj_name rjs) /\
  map rid regs = seq 0 (List.length acc + List.length rjs).
Proof.
  revert allNames acc; induction rjs as [|rj rjs IH]; intros allNames acc Hacc H; simpl in *.
  - injection H as <-. rewrite app_nil_r, Nat.add_0_r. auto.
  - destruct (existsb (String.eqb (rj_name rj)) allNames); [discriminate|].
    assert (Hacc' : map rid (app acc [Region_fromJson (List.length acc) rj])
                    = seq 0 (List.length (app acc [Region_fromJson (List.length acc) rj]))).
    { rewrite map_app, Hacc, length_app. simpl. rewrite Nat.add_1_r, seq_S. reflexivity. }
    destruct (IH _ _ Hacc' H) as [H1 H2].
    rewrite map_app, <- app_assoc in H1. split; [exact H1|].
    rewrite H2, length_app. simpl. f_equal. lia.
Qed.

Lemma FSM_new_shape (regs : list Region) (sts : list State) (f : FSM) :
  fresh_states sts -> FSM_new regs sts = Ok f ->
  regions f = regs /\ map st_name (states f) = map st_name sts /\
  startState f = currentState f /\
  startState f = match sts with [] => None | _ :: _ => Some 0%nat end.
Proof.
  intro Hf. unfold FSM_new.
  destruct (mapRes _ sts) as [sts'|e] eqn:M; simpl; [|discriminate].
  intro H; injection H as <-. simpl.
  apply mapRes_Forall2 in M.
  destruct (bind_states_resolved sts regs sts sts' M Hf) as [_ H2]. auto.
Qed.

(** X4: an FSM built by [FSM.fromJson] has the regions of the description,
    in declaration order, each a distinct object (identities 0, 1, ...), the
    states of the description in declaration order, and starts in its first
    state. *)
Theorem FSM_fromJson_shape (d : FSM_json) (f : FSM) :
  FSM_fromJson d = Ok f ->
  exists rjs sjs, fj_regions d = Some rjs /\ fj_states d = Some sjs /\
    map name (regions f) = map rj_name rjs /\
    map rid (regions f) = seq 0 (List.length rjs) /\
    map st_name (states f) = map sj_name sjs /\
    startState f = Some 0%nat /\ currentState f = Some 0%nat.
Proof.
  intro Hd.
  destruct (FSM_fromJson_ok d f Hd) as (rjs & sjs & regs & Hr & Hs & Hne & Ar & Hn).
  destruct (FSM_new_shape _ _ _ (State_fromJson_fresh sjs) Hn) as (Hreg & Hnames & Hsc & Hst).
  destruct (add_regions_shape rjs [] [] regs eq_refl Ar) as [N R].
  exists rjs, sjs. split; [exact Hr|]. split; [exact Hs|].
  rewrite Hreg. split; [exact N|]. split; [exact R|].
  split; [rewrite Hnames, map_map; reflexivity|].
  destruct sjs as [|sj sjs0]; [contradiction|]. simpl in Hst.
  split; [exact Hst|]. rewrite <- Hsc. exact Hst.
Qed.

(** Sample description: two regions and two states *)
Definition sampleJson : FSM_json :=
  {| fj_regions := Some [mkRegion_json "A" 0 0 10 10 "a.png"; mkRegion_json "B" 20 0 10 10 ""];
     fj_states := Some
       [mkState_json "start"
          [mkTransition_json (mkEventSpec_json press "A")
             [mkAction_json set_image "B" "b.png"] "down"];
        mkState_json "down"
          [mkTransition_json (mkEventSpec_json release "*")
             [mkAction_json clear_image "B" ""] "start";
           mkTransition_json (mkEventSpec_json release_none "")
             [mkAction_json print "" "released"] "start"]] |}.

Lemma FSM_fromJson_shape_witness :
  exists f, FSM_fromJson sampleJson = Ok f /\
    exists rjs sjs, fj_regions sampleJson = Some rjs /\ fj_states sampleJson = Some sjs /\
      map name (regions f) = map rj_name rjs /\
      map rid (regions f) = seq 0 (List.length rjs) /\
      map st_name (states f) = map sj_name sjs /\
      startState f = Some 0%nat /\ currentState f = Some 0%nat.
Proof.
  eexists. split; [reflexivity|].
  apply (FSM_fromJson_shape sampleJson). reflexivity.
Defined.

(** X5: an FSM built by [FSM.fromJson] is live: every transition target is
    an existing state and the current state exists. *)
Theorem FSM_fromJson_live (d : FSM_json) (f : FSM) :
  FSM_fromJson d = Ok f -> live f.
Proof.
  intro Hd.
  destruct (FSM_fromJson_ok d f Hd) as (rjs & sjs & regs & Hr & Hs & Hne & Ar & Hn).
  destruct (FSM_new_shape _ _ _ (State_fromJson_fresh sjs) Hn) as (Hreg & Hnames & Hsc & Hst).
  destruct (FSM_new_resolved _ _ _ (State_fromJson_fresh sjs) Hn) as [Hres _].
  split.
  - unfold targets_ok. unfold fsm_resolved in Hres.
    eapply Forall_impl; [|exact Hres]. intros s Hs0. simpl in Hs0.
    eapply Forall_impl; [|exact Hs0]. intros t [(i & Hi & Hn') _].
    rewrite nth_error_map in Hn'.
    destruct (nth_error (states f) i) as [st|] eqn:E; [|discriminate].
    eauto.
  - destruct sjs as [|sj sjs0]; [contradiction|]. simpl in Hst.
    rewrite <- Hsc, Hst.
    destruct (states f) as [|s0 ss] eqn:Es.
    + simpl in Hnames. discriminate.
    + exists 0%nat, s0. auto.
Qed.

Lemma FSM_fromJson_live_witness :
  exists f, FSM_fromJson sampleJson = Ok f /\ live f.
Proof.
  eexists. split; [reflexivity|].
  apply (FSM_fromJson_live sampleJson). reflexivity.
Defined.

Lemma actOnEvent_geom_aux (f : FSM) (out : list string) (evt : EventType)
  (reg : option Region) :
  map geom (regions (fst (actOnEvent f out evt reg))) = map geom (regions f).
Proof.
  unfold actOnEvent.
  destruct (currentState f) as [i|]; [|reflexivity].
  destruct (nth_error (states f) i) as [st|]; [|reflexivity].
  induction (transitions st) as [|t ts IH]; [reflexivity|].
  destruct (Transition_match t evt reg); [|exact IH].
  pose proof (run_actions_geom (actions t) evt reg (regions f) out) as G.
  destruct (run_actions (actions t) evt reg (regions f) out) as [rs o].
  exact G.
Qed.

Lemma filter_containsb_geom (px py : Z) (l1 l2 : list Region) :
  map geom l1 = map geom l2 ->
  map geom (filter (containsb px py) l1) = map geom (filter (containsb px py) l2).
Proof.
  revert l2; induction l1 as [|r1 l1 IH]; intros [|r2 l2] H; simpl in *;
    try discriminate; [reflexivity|].
  unfold geom in H at 1 2. injection H as E1 E2 E3 E4 E5 E6 Hl.
  assert (C : containsb px py r1 = containsb px py r2)
    by (unfold containsb; rewrite E3, E4, E5, E6; reflexivity).
  rewrite C. destruct (containsb px py r2); simpl; rewrite (IH l2 Hl); [|reflexivity].
  f_equal. unfold geom. congruence.
Qed.

Lemma map_rid_geom (l1 l2 : list Region) :
  map geom l1 = map geom l2 -> map rid l1 = map rid l2.
Proof.
  intro H.
  replace (map rid l1) with (map (fun g => fst (fst (fst (fst (fst g))))) (map geom l1))
    by (rewrite map_map; reflexivity).
  rewrite H, map_map. reflexivity.
Qed.

Lemma includes_rids (l1 l2 : list Region) (r : Region) :
  map rid l1 = map rid l2 -> includes l1 r = includes l2 r.
Proof.
  revert l2; induction l1 as [|a l1 IH]; intros [|b l2] H; simpl in *;
    try discriminate; [reflexivity|].
  injection H as Hab Hl. unfold includes in *. simpl.
  unfold reg_eqb at 1 2. rewrite Hab. f_equal. apply IH. exact Hl.
Qed.

Lemma filter_not_included (l1 l2 : list Region) :
  map rid l1 = map rid l2 -> filter (fun r => negb (includes l2 r)) l1 = [].
Proof.
  intro H.
  assert (Hin : forall r, In r l1 -> includes l2 r = true).
  { intros r Hr. rewrite <- (includes_rids l1 l2 r H).
    unfold includes. apply existsb_exists. exists r. split; [exact Hr|].
    unfold reg_eqb. apply Nat.eqb_refl. }
  clear H. induction l1 as [|r l1 IH]; simpl; [reflexivity|].
  rewrite (Hin r (or_introl eq_refl)). simpl. apply IH.
  intros r' Hr'. apply Hin. right. exact Hr'.
Qed.

Lemma pick_eq (it : FSMInteractor) (f : FSM) (px py : Z) :
  fsm it = Some f -> pick it px py = rev (filter (containsb px py) (regions f)).
Proof. intro Hf. unfold pick. rewrite Hf, pick_loop. reflexivity. Qed.

Lemma deliver_geom (what : RawKind) (cur prev : list Region) (f : FSM) (out : list string) :
  map geom (regions (fst (deliver (fun '(f0, o) e r => actOnEvent f0 o e r)
                            what cur prev (f, out))))
  = map geom (regions f).
Proof.
  rewrite deliver_spec_events. generalize (spec_events what cur prev) as l.
  intro l. revert f out. induction l as [|[e r] l IH]; intros f out; simpl; [reflexivity|].
  pose proof (actOnEvent_geom_aux f out e r) as G.
  destruct (actOnEvent f out e r) as [f1 o1]. rewrite IH. exact G.
Qed.

Lemma deliver_move_same {S : Type} (act : S -> EventType -> option Region -> S)
  (cur prev : list Region) (s : S) :
  map rid cur = map rid prev ->
  deliver act Raw_move cur prev s = fold_left (fun s0 r => act s0 move_inside (Some r)) cur s.
Proof.
  intro H. unfold deliver.
  rewrite (filter_not_included cur prev H), (filter_not_included prev cur (eq_sym H)).
  reflexivity.
Qed.

(** X6: dispatching twice at the same point: after [dispatchRawEvent] at
    [(px, py)], the stored pick list is the pick made there, a new pick at the
    same point finds the same region objects (the actions only change images),
    and a move sampled there again delivers no [enter] or [exit]: only one
    [move_inside] per picked region. *)
Theorem dispatch_same_point (it : FSMInteractor) (f : FSM) (out : list string)
  (what : RawKind) (px py : Z) :
  fsm it = Some f ->
  let it1 := fst (dispatchRawEvent it out what px py) in
  lastPickedRegions it1 = pick it px py /\
  map rid (pick it1 px py) = map rid (pick it px py) /\
  (forall (S : Type) (act : S -> EventType -> option Region -> S) (s : S),
     deliver act Raw_move (pick it1 px py) (lastPickedRegions it1) s =
     fold_left (fun s0 r => act s0 move_inside (Some r)) (pick it1 px py) s).
Proof.
  intros Hf it1. unfold it1, dispatchRawEvent. rewrite Hf.
  pose proof (deliver_geom what (pick it px py) (lastPickedRegions it) f out) as G.
  destruct (deliver (fun '(f0, o) e r => actOnEvent f0 o e r) what (pick it px py)
              (lastPickedRegions it) (f, out)) as [f' out'].
  simpl in G |- *.
  assert (R : map rid (pick {| ix := ix it; iy := iy it; fsm := Some f';
                               lastPickedRegions := pick it px py |} px py)
              = map rid (pick it px py)).
  { rewrite (pick_eq it f px py Hf). erewrite (pick_eq _ f') by reflexivity.
    rewrite !map_rev.
    f_equal. apply map_rid_geom, filter_containsb_geom. exact G. }
  split; [reflexivity|]. split; [exact R|].
  intros S act s. apply deliver_move_same. exact R.
Qed.

Lemma dispatch_same_point_witness :
  fsm (sampleInteractor []) = Some sampleFSM /\
  (let it1 := fst (dispatchRawEvent (sampleInteractor []) [] Raw_press 7 7) in
   lastPickedRegions it1 = pick (sampleInteractor []) 7 7 /\
   map rid (pick it1 7 7) = map rid (pick (sampleInteractor []) 7 7) /\
   (forall (S : Type) (act : S -> EventType -> option Region -> S) (s : S),
      deliver act Raw_move (pick it1 7 7) (lastPickedRegions it1) s =
      fold_left (fun s0 r => act s0 move_inside (Some r)) (pick it1 7 7) s)).
Proof.
  split; [reflexivity|].
  apply (dispatch_same_point (sampleInteractor []) sampleFSM [] Raw_press 7 7).
  reflexivity.
Defined.

(** X7: [Action.bindRegion] binds the first region of the collection whose
    name is the action's region name and keeps the action's type, region name
    and parameter.  When no region has that name it leaves the region absent
    for [none], [print] and [print_event], and fails through [Err.emit] for
    [set_image] and [clear_image]. *)
Theorem Action_bindRegion_outcome (a : Action) (regs : list Region) :
  match Action_bindRegion a regs with
  | Ok a' =>
      actType a' = actType a /\ onRegionName a' = onRegionName a /\ param a' = param a /\
      ((exists r pre post, onRegion a' = Some r /\ regs = app pre (r :: post) /\
          name r = onRegionName a /\ Forall (fun r' => name r' <> onRegionName a) pre)
       \/ (onRegion a' = None /\ (forall r, In r regs -> name r <> onRegionName a) /\
           (actType a = none \/ actType a = print \/ actType a = print_event)))
  | Throw e =>
      (exists msg, e = ErrEmitted msg) /\
      (actType a = set_image \/ actType a = clear_image) /\
      (forall r, In r regs -> name r <> onRegionName a)
  end.
Proof.
  unfold Action_bindRegion.
  destruct (find (fun reg => String.eqb (onRegionName a) (name reg)) regs) as [r|] eqn:F.
  - destruct (find_first _ _ _ F) as (pre & post & Hregs & Hr & Hpre).
    simpl. split; [reflexivity|]. split; [reflexivity|]. split; [reflexivity|].
    left. exists r, pre, post. apply String.eqb_eq in Hr.
    split; [reflexivity|]. split; [exact Hregs|]. split; [auto|].
    apply Forall_forall. intros r' Hr' Heq.
    apply forallb_forall with (x := r') in Hpre; [|exact Hr'].
    rewrite Heq, String.eqb_refl in Hpre. discriminate.
  - assert (Hno : forall r, In r regs -> name r <> onRegionName a).
    { intros r Hr Heq. pose proof (find_none_forall _ _ F r Hr) as Hf.
      cbn beta in Hf. rewrite Heq, String.eqb_refl in Hf. discriminate. }
    destruct (actType a) eqn:E; simpl;
      first [ (split; [eexists; reflexivity|]; split; [auto|]; exact Hno)
            | (split; [reflexivity|]; split; [reflexivity|]; split; [reflexivity|];
               right; split; [reflexivity|]; split; [exact Hno|]; auto) ].
Qed.

(** X8: an EventSpec whose region name is "*" always binds, leaving the
    region absent, and the bound spec then ignores the event's region: it
    matches by event type alone ([any] always, [nevermatch] never). *)
Theorem wildcard_matches_any_region (es : EventSpec) (regs : list Region) :
  regionName es = "*" ->
  exists es', EventSpec_bindRegion es regs = Ok es' /\
    region es' = None /\ evtType es' = evtType es /\ regionName es' = "*" /\
    forall evt regn, match_ es' evt regn =
      match evtType es with
      | nevermatch => false
      | any => true
      | _ => EventType_eqb (evtType es) evt
      end.
Proof.
  intro H. unfold EventSpec_bindRegion. rewrite H. simpl.
  eexists. split; [reflexivity|]. split; [reflexivity|]. split; [reflexivity|].
  split; [reflexivity|]. intros evt regn.
  unfold match_. cbn [evtType regionName region].
  destruct regn, (evtType es); simpl; rewrite ?andb_true_r; reflexivity.
Qed.

Lemma wildcard_matches_any_region_witness :
  regionName (EventSpec_new release "*") = "*" /\
  exists es', EventSpec_bindRegion (EventSpec_new release "*") [regA] = Ok es' /\
    region es' = None /\ evtType es' = evtType (EventSpec_new release "*") /\
    regionName es' = "*" /\
    forall evt regn, match_ es' evt regn =
      match evtType (EventSpec_new release "*") with
      | nevermatch => false
      | any => true
      | _ => EventType_eqb (evtType (EventSpec_new release "*")) evt
      end.
Proof.
  split; [reflexivity|].
  apply (wildcard_matches_any_region (EventSpec_new release "*") [regA]). reflexivity.
Defined.

(** What the binding of [FSM._finalize] needs of a JSON description: the
    names an event spec, an action and a transition refer to can be
    resolved against the declared region and state names. *)
Definition ej_resolvable (regNames : list string) (ej : EventSpec_json) : Prop :=
  ej_region ej = "*" \/ In (ej_region ej) regNames \/ ej_evtType ej = nevermatch \/
  (ej_region ej = "" /\ (ej_evtType ej = release_none \/ ej_evtType ej = any)).

Definition aj_resolvable (regNames : list string) (aj : Action_json) : Prop :=
  In (aj_region aj) regNames \/ aj_act aj = none \/ aj_act aj = print \/ aj_act aj = print_event.

Definition tj_resolvable (regNames stNames : list string) (tj : Transition_json) : Prop :=
  In (tj_target tj) stNames /\ ej_resolvable regNames (tj_event tj) /\
  Forall (aj_resolvable regNames) (tj_actions tj).

Lemma find_index_In {A} (p : A -> bool) (l : list A) (a : A) :
  In a l -> p a = true -> exists i, find_index p l = Some i.
Proof.
  induction l as [|b l IH]; simpl; [tauto|].
  intros [<-|Ha] Hp.
  - rewrite Hp. eexists; reflexivity.
  - destruct (p b); [eexists; reflexivity|].
    destruct (IH Ha Hp) as [i ->]. eexists; reflexivity.
Qed.

Lemma find_name_none (n : string) (regs : list Region) :
  find (fun reg => String.eqb n (name reg)) regs = None -> ~ In n (map name regs).
Proof.
  intros F Hin. apply in_map_iff in Hin as (r & Hr & Hin).
  pose proof (find_none_forall _ _ F r Hin) as Hf. cbn beta in Hf.
  rewrite Hr, String.eqb_refl in Hf. discriminate.
Qed.

Lemma mapRes_ok {A B} (g : A -> Res B) (l : list A) :
  (forall a, In a l -> exists b, g a = Ok b) -> exists bs, mapRes g l = Ok bs.
Proof.
  induction l as [|a l IH]; intro H; simpl; [eexists; reflexivity|].
  destruct (H a (or_introl eq_refl)) as [b ->]. simpl.
  destruct IH as [bs ->]; [intros a' Ha'; apply H; right; exact Ha'|].
  eexists; reflexivity.
Qed.

Lemma es_bind_ok (regs : list Region) (ej : EventSpec_json) :
  ej_resolvable (map name regs) ej ->
  exists es', EventSpec_bindRegion (EventSpec_fromJson ej) regs = Ok es'.
Proof.
  intro H. unfold EventSpec_bindRegion. simpl.
  destruct (String.eqb_spec (ej_region ej) "*") as [Hs|Hs]; [eexists; reflexivity|].
  destruct (find (fun reg => String.eqb (ej_region ej) (name reg)) regs) eqn:F;
    [eexists; reflexivity|].
  destruct H as [H|[H|[H|[H1 [H2|H2]]]]].
  - contradiction.
  - exfalso. exact (find_name_none _ _ F H).
  - rewrite H. eexists; reflexivity.
  - rewrite H1, H2. destruct (ej_evtType ej); eexists; reflexivity.
  - rewrite H1, H2. destruct (ej_evtType ej); eexists; reflexivity.
Qed.

Lemma act_bind_ok (regs : list Region) (aj : Action_json) :
  aj_resolvable (map name regs) aj ->
  exists a', Action_bindRegion (Action_fromJson aj) regs = Ok a'.
Proof.
  intro H. unfold Action_bindRegion. simpl.
  destruct (find (fun reg => String.eqb (aj_region aj) (name reg)) regs) eqn:F;
    [eexists; reflexivity|].
  destruct H as [H|[H|[H|H]]].
  - exfalso. exact (find_name_none _ _ F H).
  - rewrite H. eexists; reflexivity.
  - rewrite H. eexists; reflexivity.
  - rewrite H. eexists; reflexivity.
Qed.

Lemma bind_transition_ok (sts : list State) (regs : list Region) (tj : Transition_json) :
  tj_resolvable (map name regs) (map st_name sts) tj ->
  exists t', bind_transition sts regs (Transition_fromJson tj) = Ok t'.
Proof.
  intros (Ht & He & Ha). unfold bind_transition, Transition_bindTarget.
  apply in_map_iff in Ht as (s & Hs & Hin).
  destruct (find_index_In (fun s => String.eqb (targetName (Transition_fromJson tj)) (st_name s))
              sts s Hin) as [i Hi].
  { cbn beta. rewrite Hs. apply String.eqb_refl. }
  rewrite Hi. cbn [bind onEvent actions Transition_fromJson].
  destruct (es_bind_ok regs (tj_event tj) He) as [es' ->]. cbn [bind].
  destruct (mapRes_ok (fun act => Action_bindRegion act regs) (map Action_fromJson (tj_actions tj)))
    as [acts ->].
  { intros a Ha'. apply in_map_iff in Ha' as (aj & <- & Hin').
    apply act_bind_ok. rewrite Forall_forall in Ha. exact (Ha aj Hin'). }
  eexists; reflexivity.
Qed.

Lemma add_regions_ok (rjs : list Region_json) (allNames : list string) (acc : list Region) :
  NoDup (app allNames (map rj_name rjs)) -> exists regs, add_regions rjs allNames acc = Ok regs.
Proof.
  revert allNames acc; induction rjs as [|rj rjs IH]; intros allNames acc H; simpl;
    [eexists; reflexivity|].
  simpl in H. pose proof (NoDup_remove_2 _ _ _ H) as Hn.
  destruct (existsb (String.eqb (rj_name rj)) allNames) eqn:E.
  - apply existsb_exists in E as (n & Hin & Hn'). apply String.eqb_eq in Hn'. subst n.
    exfalso. apply Hn. apply in_or_app. left. exact Hin.
  - apply IH. rewrite <- app_assoc. exact H.
Qed.

Lemma add_states_ok (sjs : list State_json) (allNames : list string) (sts : list State) :
  NoDup (app allNames (map sj_name sjs)) ->
  add_states sjs allNames sts = Ok (app sts (map State_fromJson sjs)).
Proof.
  revert allNames sts; induction sjs as [|sj sjs IH]; intros allNames sts H; simpl;
    [now rewrite app_nil_r|].
  simpl in H. pose proof (NoDup_remove_2 _ _ _ H) as Hn.
  destruct (existsb (String.eqb (sj_name sj)) allNames) eqn:E.
  - apply existsb_exists in E as (n & Hin & Hn'). apply String.eqb_eq in Hn'. subst n.
    exfalso. apply Hn. apply in_or_app. left. exact Hin.
  - rewrite IH; [now rewrite <- app_assoc|]. rewrite <- app_assoc. exact H.
Qed.

(** X9: [FSM.fromJson] succeeds on every well-formed description: a region
    array and a non-empty state array, no two regions and no two states of
    the same name, and every name used by a transition resolvable (the
    target names a declared state; the event spec's region name is "*", a
    declared region, or the spec is [nevermatch], or "" with [release_none]
    or [any]; each action's region name is a declared region, or the action
    is [none], [print] or [print_event]). *)
Theorem FSM_fromJson_succeeds (d : FSM_json) (rjs : list Region_json) (sjs : list State_json) :
  fj_regions d = Some rjs -> fj_states d = Some sjs -> sjs <> [] ->
  NoDup (map rj_name rjs) -> NoDup (map sj_name sjs) ->
  Forall (fun sj => Forall (tj_resolvable (map rj_name rjs) (map sj_name sjs))
                           (sj_transitions sj)) sjs ->
  exists f, FSM_fromJson d = Ok f.
Proof.
  intros Hr Hs Hne Nr Ns Ht. unfold FSM_fromJson. rewrite Hr, Hs.
  destruct (add_regions_ok rjs [] [] Nr) as [regs Ar].
  destruct (add_regions_shape rjs [] [] regs eq_refl Ar) as [Hnames _].
  simpl in Hnames. rewrite Ar. cbn [bind].
  destruct sjs as [|sj sjs0]; [contradiction|]. cbn [bind].
  rewrite (add_states_ok (sj :: sjs0) [] [] Ns). cbn [bind app].
  set (sts := map State_fromJson (sj :: sjs0)).
  assert (Hsn : map st_name sts = map sj_name (sj :: sjs0))
    by (unfold sts; rewrite map_map; reflexivity).
  unfold FSM_new.
  destruct (mapRes_ok
              (fun st => let! ts := mapRes (bind_transition sts regs) (transitions st) in
                         Ok {| st_name := st_name st; transitions := ts |}) sts) as [sts' ->].
  { intros st Hst. unfold sts in Hst. apply in_map_iff in Hst as (sj' & <- & Hin).
    rewrite Forall_forall in Ht. specialize (Ht sj' Hin).
    destruct (mapRes_ok (bind_transition sts regs) (transitions (State_fromJson sj'))) as [ts ->].
    - intros t Ht'. simpl in Ht'. apply in_map_iff in Ht' as (tj & <- & Htj).
      apply bind_transition_ok. rewrite Hnames, Hsn.
      rewrite Forall_forall in Ht. exact (Ht tj Htj).
    - eexists; reflexivity. }
  eexists; reflexivity.
Qed.

Lemma FSM_fromJson_succeeds_witness :
  exists rjs sjs,
    fj_regions sampleJson = Some rjs /\ fj_states sampleJson = Some sjs /\ sjs <> [] /\
    NoDup (map rj_name rjs) /\ NoDup (map sj_name sjs) /\
    Forall (fun sj => Forall (tj_resolvable (map rj_name rjs) (map sj_name sjs))
                             (sj_transitions sj)) sjs /\
    exists f, FSM_fromJson sampleJson = Ok f.
Proof.
  assert (Nr : NoDup ["A"; "B"]) by (repeat constructor; simpl; intuition discriminate).
  assert (Ns : NoDup ["start"; "down"]) by (repeat constructor; simpl; intuition discriminate).
  assert (Ht : Forall (fun sj => Forall (tj_resolvable ["A"; "B"] ["start"; "down"])
                                        (sj_transitions sj))
                      (match fj_states sampleJson with Some l => l | None => [] end)).
  { simpl. repeat (apply Forall_cons || apply Forall_nil);
      unfold tj_resolvable, ej_resolvable, aj_resolvable; simpl;
      repeat (apply Forall_cons || apply Forall_nil || split); simpl; auto;
      right; right; right; auto. }
  do 2 eexists. split; [reflexivity|]. split; [reflexivity|]. split; [discriminate|].
  split; [exact Nr|]. split; [exact Ns|]. split; [exact Ht|].
  apply (FSM_fromJson_succeeds sampleJson _ _ eq_refl eq_refl); [discriminate|exact Nr|exact Ns|exact Ht].
Defined.

Lemma actOnEvent_keeps (f : FSM) (out : list string) (evt : EventType) (reg : option Region) :
  states (fst (actOnEvent f out evt reg)) = states f /\
  startState (fst (actOnEvent f out evt reg)) = startState f /\
  exists extra, snd (actOnEvent f out evt reg) = app out extra.
Proof.
  unfold actOnEvent.
  destruct (currentState f) as [i|]; [|repeat split; exists []; now rewrite app_nil_r].
  destruct (nth_error (states f) i) as [st|];
    [|repeat split; exists []; now rewrite app_nil_r].
  induction (transitions st) as [|t ts IH];
    [repeat split; exists []; now rewrite app_nil_r|].
  destruct (Transition_match t evt reg); [|exact IH].
  assert (O : exists extra, snd (run_actions (actions t) evt reg (regions f) out) = app out extra).
  { unfold run_actions. generalize (regions f) out. clear IH.
    induction (actions t) as [|a acts IHa]; intros rs o; simpl;
      [exists []; now rewrite app_nil_r|].
    destruct (execute a evt reg rs o) as [rs1 o1] eqn:E.
    destruct (IHa rs1 o1) as [e2 ->].
    assert (exists e1, o1 = app o e1) as [e1 ->].
    { unfold execute in E. destruct (actType a); try destruct (onRegion a);
        injection E as _ <-; first [exists []; now rewrite app_nil_r | eexists; reflexivity]. }
    exists (app e1 e2). now rewrite app_assoc. }
  destruct (run_actions (actions t) evt reg (regions f) out) as [rs o]. simpl in *. auto.
Qed.

(** X12: [dispatchRawEvent] never moves the interactor and only appends to
    the console.  Without an FSM it does nothing; with one it keeps the
    FSM's states, start state and region geometry, and stores the regions
    picked at the event's position as the new previous pick list. *)
Theorem dispatchRawEvent_frame (it : FSMInteractor) (out : list string) (what : RawKind)
  (px py : Z) :
  let '(it', out') := dispatchRawEvent it out what px py in
  ix it' = ix it /\ iy it' = iy it /\ (exists extra, out' = app out extra) /\
  match fsm it with
  | None => it' = it
  | Some f => exists f', fsm it' = Some f' /\ states f' = states f /\
                         startState f' = startState f /\
                         map geom (regions f') = map geom (regions f) /\
                         lastPickedRegions it' = pick it px py
  end.
Proof.
  unfold dispatchRawEvent. destruct (fsm it) as [f|] eqn:Hf.
  - pose proof (deliver_geom what (pick it px py) (lastPickedRegions it) f out) as G.
    assert (K : forall l (st : FSM * list string),
               let st' := fold_left (fun s0 '(e, r) =>
                                       (fun '(f0, o) e0 r0 => actOnEvent f0 o e0 r0) s0 e r)
                                    l st in
               states (fst st') = states (fst st) /\ startState (fst st') = startState (fst st) /\
               exists extra, snd st' = app (snd st) extra).
    { induction l as [|[e r] l IH]; intros [f0 o] st'; subst st'; simpl.
      - repeat split. exists []. now rewrite app_nil_r.
      - destruct (actOnEvent_keeps f0 o e r) as (H1 & H2 & e1 & H3).
        destruct (IH (actOnEvent f0 o e r)) as (H4 & H5 & e2 & H6).
        rewrite H4, H5, H6, H1, H2, H3. repeat split. exists (app e1 e2).
        now rewrite app_assoc. }
    rewrite (deliver_spec_events (fun '(f0, o) e r => actOnEvent f0 o e r)) in G |- *.
    specialize (K (spec_events what (pick it px py) (lastPickedRegions it)) (f, out)).
    destruct (fold_left _ _ (f, out)) as [f' o']. simpl in *.
    destruct K as (K1 & K2 & K3).
    split; [reflexivity|]. split; [reflexivity|]. split; [exact K3|].
    exists f'. auto.
  - split; [reflexivity|]. split; [reflexivity|]. split; [|reflexivity].
    exists []. now rewrite app_nil_r.
Qed.

(** ** Debugging strings of actions and event specs *)

(** The indentation loop of the [debugString] methods:
    [for (let i = 0; i < indent; i++) result += indentStr;] with
    [indentStr = '  '] *)
Fixpoint add_indent (indent : nat) (result : string) : string :=
  match indent with
  | O => result
  | S k => add_indent k (result ++ "  ")
  end.

(** Truthiness of an object reference: [undefined] is falsy, an object truthy *)
Definition truthy {A} (o : option A) : bool :=
  match o with Some _ => true | None => false end.

(** [Action.debugString(indent)] *)
Definition Action_debugString (a : Action) (indent : nat) : string :=
  let result := add_indent indent "" in
  if negb (truthy (onRegion a)) && negb (ActionType_eqb (actType a) none)
     && negb (ActionType_eqb (actType a) print) && negb (ActionType_eqb (actType a) print_event)
  then result ++ " unbound"
  else result.

(** [EventSpec.debugString(indent)] *)
Definition EventSpec_debugString (es : EventSpec) (indent : nat) : string :=
  let result := add_indent indent "" ++ EventType_str (evtType es) ++ " " ++ regionName es in
  if negb (truthy (region es)) then result ++ " unbound" else result.

Lemma str_app_assoc (a b c : string) : ((a ++ b) ++ c) = (a ++ b ++ c).
Proof. induction a as [|ch a IH]; simpl; [reflexivity|]. rewrite IH. reflexivity. Qed.

Lemma str_app_empty (s : string) : (s ++ "") = s.
Proof. induction s as [|ch s IH]; simpl; [reflexivity|]. rewrite IH. reflexivity. Qed.

Lemma existsb_find {A} (p : A -> bool) (l : list A) :
  existsb p l = match find p l with Some _ => true | None => false end.
Proof.
  induction l as [|a l IH]; simpl; [reflexivity|]. destruct (p a); [reflexivity|exact IH].
Qed.

(** X13: an action that [bindRegion] accepted is never reported as unbound
    by [Action.debugString]: its debug string is the indentation alone. *)
Theorem Action_debugString_bound (a a' : Action) (regs : list Region) (indent : nat) :
  Action_bindRegion a regs = Ok a' -> Action_debugString a' indent = add_indent indent "".
Proof.
  unfold Action_bindRegion.
  destruct (find (fun reg => String.eqb (onRegionName a) (name reg)) regs) as [r|].
  - intro H. injection H as <-. reflexivity.
  - destruct (actType a) eqn:E; simpl; intro H; try discriminate;
      injection H as <-; unfold Action_debugString; simpl; rewrite ?E; reflexivity.
Qed.

Lemma Action_debugString_bound_witness :
  Action_bindRegion (Action_new set_image "A" "a2.png") [regA; regB]
    = Ok (mkAction set_image "A" (Some regA) "a2.png") /\
  Action_debugString (mkAction set_image "A" (Some regA) "a2.png") 2 = add_indent 2 "".
Proof.
  split; [reflexivity|].
  apply (Action_debugString_bound (Action_new set_image "A" "a2.png") _ [regA; regB] 2).
  reflexivity.
Defined.

(** X14: after [bindRegion] succeeds on an event spec with no region bound
    yet, [EventSpec.debugString] shows the event type and the region name,
    followed by " unbound" exactly when the region name is "*" or names none
    of the regions. *)
Theorem EventSpec_debugString_bound (es es' : EventSpec) (regs : list Region) (indent : nat) :
  region es = None -> EventSpec_bindRegion es regs = Ok es' ->
  EventSpec_debugString es' indent =
  add_indent indent "" ++ EventType_str (evtType es) ++ " " ++ regionName es ++
  (if String.eqb (regionName es) "*"
      || negb (existsb (fun reg => String.eqb (regionName es) (name reg)) regs)
   then " unbound" else "").
Proof.
  intro Hn. unfold EventSpec_bindRegion. rewrite existsb_find.
  destruct (String.eqb (regionName es) "*") eqn:S; simpl.
  - intro H. injection H as <-. unfold EventSpec_debugString. simpl.
    rewrite !str_app_assoc. reflexivity.
  - destruct (find (fun reg => String.eqb (regionName es) (name reg)) regs) as [r|]; simpl.
    + intro H. injection H as <-. unfold EventSpec_debugString. simpl.
      rewrite str_app_empty. reflexivity.
    + destruct (EventType_eqb (evtType es) nevermatch);
        [|destruct ((EventType_eqb (evtType es) release_none
                     || EventType_eqb (evtType es) any) && String.eqb (regionName es) "")];
        intro H; try (unfold err_emit in H; discriminate); injection H as <-;
        unfold EventSpec_debugString; rewrite Hn; simpl;
        rewrite !str_app_assoc; reflexivity.
Qed.

Lemma EventSpec_debugString_bound_witness :
  region (EventSpec_new nevermatch "Z") = None /\
  EventSpec_bindRegion (EventSpec_new nevermatch "Z") [regA; regB]
    = Ok (EventSpec_new nevermatch "Z") /\
  EventSpec_debugString (EventSpec_new nevermatch "Z") 1 =
  add_indent 1 "" ++ EventType_str nevermatch ++ " " ++ "Z" ++
  (if String.eqb "Z" "*"
      || negb (existsb (fun reg => String.eqb "Z" (name reg)) [regA; regB])
   then " unbound" else "").
Proof.
  split; [reflexivity|]. split; [reflexivity|].
  apply (EventSpec_debugString_bound (EventSpec_new nevermatch "Z") _ [regA; regB] 1);
    reflexivity.
Defined.
